(** * Receipt Parser Pro: the per-receipt processing pipeline

    A shallow embedding of [handleProcessReceipts] (the batch orchestrator of
    the [App] component), of its local [updateResult] closure (the job state
    store), and of the two services it drives whose behaviour decides what a
    job record ends up holding: [generateExpenseJson] (geminiService) and
    [saveToGoogleSheets] (sheetsService); and of what surrounds them in the
    components: the Process button, the results dashboard, the image part
    sent to the model and the choice of a spreadsheet after login.

    Conventions of the embedding.
    - A JavaScript string is a [string] holding the UTF-8 encoding of its
      text; [null] of [string | null] is [None].
    - A value produced by [JSON.parse] is a [json]; the [data] field of a
      receipt, typed [ExpenseData | null] but filled with whatever
      [JSON.parse] returned, is a [json] whose [JNull] is JavaScript's [null].
    - The asynchronous handler is run against a script of what the outside
      world answers (one [JobEnv] per file); the handler's effects
      (React state setters, [alert], the calls it awaits) are logged, in
      program order, in a list of [event]s.  An [Await_] event is at the same
      time the record that a collaborator was called and the point where the
      handler is suspended. *)

From Stdlib Require Import ZArith Ascii String.
From stdpp Require Import base tactics option list strings pretty.

Set Warnings "-register-all".

Local Open Scope string_scope.
Local Open Scope list_scope.

(** ** JSON values and [JSON.parse] *)

Module Json.

Inductive json : Type :=
| JNull
| JBool (b : bool)
| JNumber (mantissa exponent : Z)   (* the number mantissa * 10 ^ exponent *)
| JString (s : string)
| JArray (elements : list json)
| JObject (members : list (string * json)).

(** The double quote character, code 34. *)
Abbreviation dquote := (Ascii false true false false false true false false).

(** The four white space characters of the JSON grammar. *)
Definition is_json_ws (c : ascii) : bool :=
  match nat_of_ascii c with
  | 32 | 9 | 10 | 13 => true
  | _ => false
  end.

Fixpoint skip_ws (s : list ascii) : list ascii :=
  match s with
  | c :: r => if is_json_ws c then skip_ws r else s
  | [] => []
  end.

Definition digit_of (c : ascii) : option Z :=
  let n := nat_of_ascii c in
  if (48 <=? n)%nat && (n <=? 57)%nat then Some (Z.of_nat (n - 48)) else None.

Definition hex_of (c : ascii) : option nat :=
  let n := nat_of_ascii c in
  if (48 <=? n)%nat && (n <=? 57)%nat then Some (n - 48)%nat
  else if (65 <=? n)%nat && (n <=? 70)%nat then Some (n - 55)%nat
  else if (97 <=? n)%nat && (n <=? 102)%nat then Some (n - 87)%nat
  else None.

(** [take_digits acc n s]: the longest run of decimal digits at the head of
    [s], accumulated into [acc]; [n] counts them. *)
Fixpoint take_digits (acc : Z) (n : nat) (s : list ascii) : Z * nat * list ascii :=
  match s with
  | c :: r =>
      match digit_of c with
      | Some d => take_digits (10 * acc + d) (S n) r
      | None => (acc, n, s)
      end
  | [] => (acc, n, [])
  end.

(** A code unit below 0x80 is one byte; above, its UTF-8 encoding. *)
Definition code_unit (n : nat) : list ascii :=
  if (n <? 128)%nat then [ascii_of_nat n]
  else if (n <? 2048)%nat then
    [ascii_of_nat (192 + n / 64); ascii_of_nat (128 + n mod 64)]
  else
    [ascii_of_nat (224 + n / 4096); ascii_of_nat (128 + (n / 64) mod 64);
     ascii_of_nat (128 + n mod 64)].

(** The characters of a string literal, after its opening quote. *)
Fixpoint parse_chars (s : list ascii) : option (list ascii * list ascii) :=
  match s with
  | [] => None
  | dquote :: r => Some ([], r)
  | "\"%char :: e :: r =>
      let plain (c : ascii) :=
        match parse_chars r with
        | Some (cs, r') => Some (c :: cs, r')
        | None => None
        end in
      match e with
      | dquote => plain dquote
      | "\"%char => plain "\"%char
      | "/"%char => plain "/"%char
      | "b"%char => plain (ascii_of_nat 8)
      | "f"%char => plain (ascii_of_nat 12)
      | "n"%char => plain (ascii_of_nat 10)
      | "r"%char => plain (ascii_of_nat 13)
      | "t"%char => plain (ascii_of_nat 9)
      | "u"%char =>
          match r with
          | a :: b :: c :: d :: r4 =>
              match hex_of a, hex_of b, hex_of c, hex_of d, parse_chars r4 with
              | Some a, Some b, Some c, Some d, Some (cs, r') =>
                  Some (code_unit (4096 * a + 256 * b + 16 * c + d) ++ cs, r')
              | _, _, _, _, _ => None
              end
          | _ => None
          end
      | _ => None
      end
  | c :: r =>
      if (nat_of_ascii c <? 32)%nat then None
      else match parse_chars r with
           | Some (cs, r') => Some (c :: cs, r')
           | None => None
           end
  end.

(** A number: [-]? int frac? exp?, a leading zero standing alone. *)
Definition parse_number (s : list ascii) : option (json * list ascii) :=
  let '(neg, s1) :=
    match s with "-"%char :: r => (true, r) | _ => (false, s) end in
  let int_part :=
    match s1 with
    | "0"%char :: r => Some (0%Z, r)
    | c :: r =>
        match digit_of c with
        | Some d => let '(m, _, r') := take_digits d 1 r in Some (m, r')
        | None => None
        end
    | [] => None
    end in
  match int_part with
  | None => None
  | Some (m, s2) =>
      let frac :=
        match s2 with
        | "."%char :: r =>
            let '(m', n, r') := take_digits m 0 r in
            if (n =? 0)%nat then None else Some (m', Z.of_nat n, r')
        | _ => Some (m, 0%Z, s2)
        end in
      match frac with
      | None => None
      | Some (m', fd, s3) =>
          let signed := if neg then (- m')%Z else m' in
          match s3 with
          | c :: r =>
              if (c =? "e")%char || (c =? "E")%char then
                let '(eneg, r1) :=
                  match r with
                  | "-"%char :: r' => (true, r')
                  | "+"%char :: r' => (false, r')
                  | _ => (false, r)
                  end in
                let '(e, n, r2) := take_digits 0 0 r1 in
                if (n =? 0)%nat then None
                else Some (JNumber signed ((if eneg then - e else e) - fd), r2)
              else Some (JNumber signed (- fd), s3)
          | [] => Some (JNumber signed (- fd), [])
          end
      end
  end.

(** Recursive descent on the grammar value / elements / members. *)
Fixpoint parse_value (fuel : nat) (s : list ascii) : option (json * list ascii) :=
  match fuel with
  | O => None
  | S fuel =>
      match skip_ws s with
      | "n"%char :: "u"%char :: "l"%char :: "l"%char :: r => Some (JNull, r)
      | "t"%char :: "r"%char :: "u"%char :: "e"%char :: r => Some (JBool true, r)
      | "f"%char :: "a"%char :: "l"%char :: "s"%char :: "e"%char :: r =>
          Some (JBool false, r)
      | dquote :: r =>
          match parse_chars r with
          | Some (cs, r') => Some (JString (string_of_list_ascii cs), r')
          | None => None
          end
      | "["%char :: r =>
          match skip_ws r with
          | "]"%char :: r' => Some (JArray [], r')
          | _ =>
              match parse_elements fuel r with
              | Some (vs, r') => Some (JArray vs, r')
              | None => None
              end
          end
      | "{"%char :: r =>
          match skip_ws r with
          | "}"%char :: r' => Some (JObject [], r')
          | _ =>
              match parse_members fuel r with
              | Some (kvs, r') => Some (JObject kvs, r')
              | None => None
              end
          end
      | s' => parse_number s'
      end
  end
with parse_elements (fuel : nat) (s : list ascii) : option (list json * list ascii) :=
  match fuel with
  | O => None
  | S fuel =>
      match parse_value fuel s with
      | Some (v, r) =>
          match skip_ws r with
          | ","%char :: r' =>
              match parse_elements fuel r' with
              | Some (vs, r'') => Some (v :: vs, r'')
              | None => None
              end
          | "]"%char :: r' => Some ([v], r')
          | _ => None
          end
      | None => None
      end
  end
with parse_members (fuel : nat) (s : list ascii)
    : option (list (string * json) * list ascii) :=
  match fuel with
  | O => None
  | S fuel =>
      match skip_ws s with
      | dquote :: r =>
          match parse_chars r with
          | Some (k, r1) =>
              match skip_ws r1 with
              | ":"%char :: r2 =>
                  match parse_value fuel r2 with
                  | Some (v, r3) =>
                      match skip_ws r3 with
                      | ","%char :: r4 =>
                          match parse_members fuel r4 with
                          | Some (kvs, r5) =>
                              Some ((string_of_list_ascii k, v) :: kvs, r5)
                          | None => None
                          end
                      | "}"%char :: r4 => Some ([(string_of_list_ascii k, v)], r4)
                      | _ => None
                      end
                  | None => None
                  end
              | _ => None
              end
          | None => None
          end
      | _ => None
      end
  end.

(** [JSON.parse text]: [None] is the SyntaxError it throws.  One level of
    the grammar costs at most two units of fuel per character read. *)
Definition JSON_parse (text : string) : option json :=
  let s := list_ascii_of_string text in
  match parse_value (2 * length s + 2) s with
  | Some (v, r) => match skip_ws r with [] => Some v | _ => None end
  | None => None
  end.

(** Property read [o[key]] on a parsed value: own properties only exist on
    objects, where the last of several equal keys wins; [None] is
    [undefined].  None of the keys the services read names a method of
    a string, number, boolean or array. *)
Fixpoint assoc_last (key : string) (kvs : list (string * json)) : option json :=
  match kvs with
  | [] => None
  | (k, v) :: r =>
      match assoc_last key r with
      | Some v' => Some v'
      | None => if String.eqb k key then Some v else None
      end
  end.

Definition get (key : string) (o : json) : option json :=
  match o with
  | JObject kvs => assoc_last key kvs
  | _ => None
  end.

End Json.

Export Json.

(** [String.prototype.trim].  A string is cut into its characters, a byte
    that is not a continuation byte ([10xxxxxx]) together with the
    continuation bytes that follow it, and the characters that are white
    space or line terminators of ECMAScript are dropped at both ends:
    U+0009 to U+000D, U+0020, U+00A0, U+1680, U+2000 to U+200A, U+2028,
    U+2029, U+202F, U+205F, U+3000 and U+FEFF. *)
Definition is_continuation (c : ascii) : bool :=
  let n := nat_of_ascii c in (128 <=? n)%nat && (n <? 192)%nat.

Fixpoint characters (s : string) : list (list ascii) :=
  match s with
  | EmptyString => []
  | String c r =>
      match characters r with
      | (d :: ds) :: chs =>
          if is_continuation d then (c :: d :: ds) :: chs else [c] :: (d :: ds) :: chs
      | chs => [c] :: chs
      end
  end.

Definition is_js_space (ch : list ascii) : bool :=
  match nat_of_ascii <$> ch with
  | [a] => ((9 <=? a)%nat && (a <=? 13)%nat) || (a =? 32)%nat
  | [a; b] => (a =? 194)%nat && (b =? 160)%nat
  | [a; b; c] =>
      ((a =? 225)%nat && (b =? 154)%nat && (c =? 128)%nat)
      || ((a =? 226)%nat && (b =? 128)%nat
          && (((128 <=? c)%nat && (c <=? 138)%nat)
              || (c =? 168)%nat || (c =? 169)%nat || (c =? 175)%nat))
      || ((a =? 226)%nat && (b =? 129)%nat && (c =? 159)%nat)
      || ((a =? 227)%nat && (b =? 128)%nat && (c =? 128)%nat)
      || ((a =? 239)%nat && (b =? 187)%nat && (c =? 191)%nat)
  | _ => false
  end.

Fixpoint trim_start (chs : list (list ascii)) : list (list ascii) :=
  match chs with
  | ch :: r => if is_js_space ch then trim_start r else chs
  | [] => []
  end.

Definition trim_end (chs : list (list ascii)) : list (list ascii) :=
  rev (trim_start (rev chs)).

Definition trim (s : string) : string :=
  string_of_list_ascii (concat (trim_end (trim_start (characters s)))).


(** ** The data model ([types.ts]) *)

Inductive SaveStatus : Type := pending | success | failed.

Record ProcessedReceipt : Type := mkReceipt {
  id : string;             (* Unique identifier for the receipt job *)
  imagePreview : string;   (* URL for the image preview *)
  status : string;         (* User-facing status message *)
  data : json;             (* The structured data, once extracted; JNull before *)
  saveStatus : SaveStatus; (* Status of the save operation *)
  error : option string    (* Any error message encountered *)
}.

(** [Partial<ProcessedReceipt>]: every field optional; [None] is a field the
    object literal does not name. *)
Record PartialReceipt : Type := mkPartial {
  upd_id : option string;
  upd_imagePreview : option string;
  upd_status : option string;
  upd_data : option json;
  upd_saveStatus : option SaveStatus;
  upd_error : option (option string)
}.

(** The object spread [{ ...r, ...update }]. *)
Definition spread (r : ProcessedReceipt) (update : PartialReceipt) : ProcessedReceipt :=
  {| id := default (id r) (upd_id update);
     imagePreview := default (imagePreview r) (upd_imagePreview update);
     status := default (status r) (upd_status update);
     data := default (data r) (upd_data update);
     saveStatus := default (saveStatus r) (upd_saveStatus update);
     error := default (error r) (upd_error update) |}.

(** The object literals the handler passes to [updateResult]. *)
Definition with_status (s : string) : PartialReceipt :=
  mkPartial None None (Some s) None None None.

Definition with_status_data (s : string) (d : json) : PartialReceipt :=
  mkPartial None None (Some s) (Some d) None None.

Definition with_status_saveStatus (s : string) (ss : SaveStatus) : PartialReceipt :=
  mkPartial None None (Some s) None (Some ss) None.

Definition with_status_error_saveStatus
    (s : string) (e : string) (ss : SaveStatus) : PartialReceipt :=
  mkPartial None None (Some s) None (Some ss) (Some (Some e)).

(** [File]: only its name reaches the pipeline's state. *)
Record File : Type := mkFile { name : string; size : N }.

(** A thrown value, as far as [catch (e)] looks at it: [e.message]. *)
Record Thrown : Type := mkThrown { message : option string }.

Definition Error (msg : string) : Thrown := mkThrown (Some msg).

(** [TypeError]s raised by the engine; the texts are V8's. *)
Definition TypeError (msg : string) : Thrown := mkThrown (Some msg).

(** The answer of an awaited external call. *)
Inductive outcome (A : Type) : Type :=
| Rejects (e : Thrown)
| Resolves (a : A).
Arguments Rejects {A} e.
Arguments Resolves {A} a.

(** What the outside world answers while one file is processed. *)
Record JobEnv : Type := mkJobEnv {
  file : File;
  objectURL : string;                     (* URL.createObjectURL(file) *)
  now : N;                                (* Date.now() *)
  ocrResponse : outcome (option string);  (* generateContent, OCR: response.text *)
  jsonResponse : outcome (option string); (* generateContent, JSON mode: response.text *)
  sheetsResponse : outcome unit           (* fetch of values:append; a response
                                             that is not ok is the Error thrown for it *)
}.

(** ** Effects *)

Inductive event : Type :=
| SetIsProcessing (b : bool)
| SetProcessedReceipts (snapshot : list ProcessedReceipt)
| Alert (msg : string)
| ConsoleError (msg : string)
| Await_extractTextFromImage (f : File)
| Await_generateExpenseJson (text : string)
| Await_saveToGoogleSheets (expenseData : json) (accessToken spreadsheetId : string).

(** The handler's monad: the local array [results] is the state, effects are
    logged, and a computation ends by returning or by throwing. *)
Definition M (A : Type) : Type :=
  list ProcessedReceipt -> list ProcessedReceipt * list event * (Thrown + A).

Definition ret {A} (a : A) : M A := fun results => (results, [], inr a).

Definition bind {A B} (m : M A) (k : A -> M B) : M B := fun results =>
  match m results with
  | (results', evs, inl e) => (results', evs, inl e)
  | (results', evs, inr a) =>
      let '(results'', evs', r) := k a results' in (results'', evs ++ evs', r)
  end.

Definition throw {A} (e : Thrown) : M A := fun results => (results, [], inl e).

Definition try_catch {A} (body : M A) (handler : Thrown -> M A) : M A := fun results =>
  match body results with
  | (results', evs, inl e) =>
      let '(results'', evs', r) := handler e results' in (results'', evs ++ evs', r)
  | done => done
  end.

Definition emit (ev : event) : M unit := fun results => (results, [ev], inr tt).

Definition await {A} (ev : event) (answer : outcome A) : M A := fun results =>
  (results, [ev], match answer with Rejects e => inl e | Resolves a => inr a end).

Declare Scope js_scope.
Delimit Scope js_scope with js.
Notation "x <- m ;; k" := (bind m (fun x => k))
  (at level 100, m at next level, right associativity) : js_scope.
Notation "m ;; k" := (bind m (fun _ => k))
  (at level 100, right associativity) : js_scope.
Local Open Scope js_scope.

(** [for (const x of xs) body]. *)
Fixpoint for_of {A} (xs : list A) (body : A -> M unit) : M unit :=
  match xs with
  | [] => ret tt
  | x :: rest => body x ;; for_of rest body
  end.

(** Trace, final array and completion of a run. *)
Definition events_of {A} (r : list ProcessedReceipt * list event * (Thrown + A))
  : list event := snd (fst r).
Definition results_of {A} (r : list ProcessedReceipt * list event * (Thrown + A))
  : list ProcessedReceipt := fst (fst r).
Definition completion_of {A} (r : list ProcessedReceipt * list event * (Thrown + A))
  : Thrown + A := snd r.

(** ** The job state store: [updateResult] (App, lines 59-65) *)

(** [results.findIndex(p)]; [None] is -1. *)
Fixpoint findIndex {A} (p : A -> bool) (l : list A) : option nat :=
  match l with
  | [] => None
  | x :: r => if p x then Some 0 else S <$> findIndex p r
  end.

(** [results.push(r)] and [setProcessedReceipts([...results])]. *)
Definition push (r : ProcessedReceipt) : M unit := fun results =>
  (results ++ [r], [], inr tt).

Definition publish : M unit := fun results =>
  (results, [SetProcessedReceipts results], inr tt).

(** The predicate [r => r.id === job]. *)
Definition has_id (job : string) (r : ProcessedReceipt) : bool := String.eqb (id r) job.

(** The assignment [results[index] = { ...results[index], ...update }]. *)
Definition merge_at (index : nat) (update : PartialReceipt)
    (results : list ProcessedReceipt) : list ProcessedReceipt :=
  alter (fun r => spread r update) index results.

(** The closure over [initialResult.id], here [job]. *)
Definition updateResult (job : string) (update : PartialReceipt) : M unit := fun results =>
  match findIndex (has_id job) results with
  | Some index => publish (merge_at index update results)
  | None => (results, [], inr tt)
  end.

(** ** The services *)

(** [!x] and [x || d] on a string that may be undefined. *)
Definition falsy (s : option string) : bool :=
  match s with
  | Some s => String.eqb s ""
  | None => true
  end.

Definition or_else (s : option string) (d : string) : string :=
  match s with
  | Some s => if String.eqb s "" then d else s
  | None => d
  end.

(** [extractTextFromImage] (geminiService, lines 41-55). *)
Definition extractTextFromImage (env : JobEnv) : M (option string) :=
  await (Await_extractTextFromImage (file env)) (ocrResponse env).

(** [generateExpenseJson] (geminiService, lines 63-114): the call is outside
    the [try]; trimming and parsing are inside it. *)
Definition generateExpenseJson (env : JobEnv) (text : string) : M json :=
  response_text <- await (Await_generateExpenseJson text) (jsonResponse env) ;;
  try_catch
    (match response_text with
     | None =>
         throw (TypeError "Cannot read properties of undefined (reading 'trim')")
     | Some t =>
         match JSON_parse (trim t) with
         | Some v => ret v
         | None => throw (mkThrown (Some "Unexpected token in JSON"))
         end
     end)
    (fun _ =>
       emit (ConsoleError "Failed to parse JSON response from Gemini:") ;;
       throw (Error
         "AI failed to generate a valid data structure. The receipt might be ambiguous.")).

(** Whether converting a parsed value to a string throws, as a template
    literal does with each of its substitutions.  An object is converted
    through its [toString] and [valueOf]: an own property named [toString]
    hides the callable one of [Object.prototype], [valueOf] then gives back
    the object itself, and the conversion ends in a TypeError.  An array is
    converted through [join], which converts each element that is not
    [null]. *)
Fixpoint ToString_throws (v : json) : bool :=
  match v with
  | JObject members => existsb (fun kv => String.eqb (fst kv) "toString") members
  | JArray elements => existsb ToString_throws elements
  | _ => false
  end.

(** The same for the value of a property read; [undefined] converts to a
    string. *)
Definition converts (v : option json) : bool :=
  match v with
  | Some v => negb (ToString_throws v)
  | None => true
  end.

(** The callback of [items.map] in [saveToGoogleSheets], a template literal:
    it reads [item.item] and [item.quantity], converting each to a string,
    and calls [item.price.toFixed(2)]. *)
Definition item_text (item : json) : option Thrown :=
  match item with
  | JNull => Some (TypeError "Cannot read properties of null (reading 'item')")
  | _ =>
      if converts (get "item" item) && converts (get "quantity" item) then
        match get "price" item with
        | Some (JNumber _ _) => None
        | None => Some (TypeError "Cannot read properties of undefined (reading 'toFixed')")
        | Some JNull => Some (TypeError "Cannot read properties of null (reading 'toFixed')")
        | Some _ => Some (TypeError "item.price.toFixed is not a function")
        end
      else Some (TypeError "Cannot convert object to primitive value")
  end.

Fixpoint items_text (items : list json) : option Thrown :=
  match items with
  | [] => None
  | item :: rest =>
      match item_text item with
      | Some e => Some e
      | None => items_text rest
      end
  end.

(** What building the row throws, before any request is made: the
    destructuring of [expenseData] and the [items.map] of sheetsService. *)
Definition row_error (expenseData : json) : option Thrown :=
  match expenseData with
  | JNull =>
      Some (TypeError
        "Cannot destructure property 'merchant' of 'expenseData' as it is null.")
  | _ =>
      match get "items" expenseData with
      | Some (JArray items) => items_text items
      | None => Some (TypeError "Cannot read properties of undefined (reading 'map')")
      | Some JNull => Some (TypeError "Cannot read properties of null (reading 'map')")
      | Some _ => Some (TypeError "items.map is not a function")
      end
  end.

(** [saveToGoogleSheets]: the row is built first; the request is only made
    when that did not throw. *)
Definition saveToGoogleSheets (env : JobEnv) (expenseData : json)
    (accessToken spreadsheetId : string) : M unit :=
  await (Await_saveToGoogleSheets expenseData accessToken spreadsheetId)
    (match row_error expenseData with
     | Some e => Rejects e
     | None => sheetsResponse env
     end).

(** ** The batch orchestrator: [handleProcessReceipts] (App, lines 32-100) *)

(** [file.name + Date.now()]. *)
Definition job_id (env : JobEnv) : string := name (file env) +:+ pretty (now env).

Definition initialResult (env : JobEnv) : ProcessedReceipt :=
  {| id := job_id env;
     imagePreview := objectURL env;
     status := "Processing OCR...";
     data := JNull;
     saveStatus := pending;
     error := None |}.

(** The [try] block, lines 70-91. *)
Definition try_block (googleAccessToken spreadsheetId : string) (env : JobEnv) : M unit :=
  let updateResult := updateResult (id (initialResult env)) in
  ocrText <- extractTextFromImage env ;;
  text <- (if falsy ocrText
           then throw (Error "Could not extract any text. The image might be unclear.")
           else ret (default "" ocrText)) ;;
  updateResult (with_status "Structuring data...") ;;
  expenseData <- generateExpenseJson env text ;;
  updateResult (with_status_data "Data extracted" expenseData) ;;
  updateResult (with_status "Saving to Google Sheets...") ;;
  saveToGoogleSheets env expenseData googleAccessToken spreadsheetId ;;
  updateResult (with_status_saveStatus "Saved successfully!" success).

(** The [catch] block, lines 92-96. *)
Definition catch_block (env : JobEnv) (e : Thrown) : M unit :=
  let error := or_else (message e) "An unknown error occurred." in
  updateResult (id (initialResult env)) (with_status_error_saveStatus "Failed" error failed).

(** One iteration of the loop, lines 44-96. *)
Definition loop_body (googleAccessToken spreadsheetId : string) (env : JobEnv) : M unit :=
  push (initialResult env) ;;
  publish ;;
  try_catch (try_block googleAccessToken spreadsheetId env) (catch_block env).

(** The handler.  [jobs] is [imageFiles], each file paired with what the
    world answers for it; [const results = []] is the state it is run in. *)
Definition handleProcessReceipts
    (jobs : list JobEnv) (googleAccessToken spreadsheetId : string) : M unit :=
  if (length jobs =? 0)%nat || String.eqb googleAccessToken ""
     || String.eqb spreadsheetId ""
  then emit (Alert "Please upload images and connect to Google Sheets.")
  else
    emit (SetIsProcessing true) ;;
    emit (SetProcessedReceipts []) ;;
    for_of jobs (loop_body googleAccessToken spreadsheetId) ;;
    emit (SetIsProcessing false).

Definition run_batch (jobs : list JobEnv) (googleAccessToken spreadsheetId : string)
  : list ProcessedReceipt * list event * (Thrown + unit) :=
  handleProcessReceipts jobs googleAccessToken spreadsheetId [].

(** ** What observers see *)

(** The React state [processedReceipts] after a trace: the argument of the
    last [setProcessedReceipts]. *)
Definition observed (before : list ProcessedReceipt) (trace : list event)
  : list ProcessedReceipt :=
  fold_left (fun st ev => match ev with SetProcessedReceipts s => s | _ => st end)
            trace before.

(** All snapshots pushed to observers, in order. *)
Definition snapshots (trace : list event) : list (list ProcessedReceipt) :=
  omap (fun ev => match ev with SetProcessedReceipts s => Some s | _ => None end) trace.

(** Lookup by id, as [updateResult] resolves a job to a record. *)
Definition find_by_id (job : string) (rs : list ProcessedReceipt) : option ProcessedReceipt :=
  match findIndex (has_id job) rs with
  | Some index => rs !! index
  | None => None
  end.

(** The update of the [catch] block for a thrown [e]. *)
Definition failure (e : Thrown) : PartialReceipt :=
  with_status_error_saveStatus "Failed"
    (or_else (message e) "An unknown error occurred.") failed.

(** The position a job's updates land on in [results ++ [initialResult]]:
    the first record carrying its id. *)
Definition target (results : list ProcessedReceipt) (env : JobEnv) : nat :=
  default (length results) (findIndex (has_id (job_id env)) results).

(** ** Notions the properties are stated with *)

(** A blank text: nothing but white space (the empty text included). *)
Definition is_blank (s : string) : bool := String.eqb (trim s) "".

(** The expected shape of a structured result, in the words of the
    specification: {merchant: string, date: string, total: number,
    items: sequence of {item: string, quantity: number, price: number}}. *)
Definition is_string (v : option json) : bool :=
  match v with Some (JString _) => true | _ => false end.

Definition is_number (v : option json) : bool :=
  match v with Some (JNumber _ _) => true | _ => false end.

Definition conforms_item (v : json) : bool :=
  match v with
  | JObject _ =>
      is_string (get "item" v) && is_number (get "quantity" v)
      && is_number (get "price" v)
  | _ => false
  end.

Definition conforms (v : json) : bool :=
  match v with
  | JObject _ =>
      is_string (get "merchant" v) && is_string (get "date" v)
      && is_number (get "total" v)
      && match get "items" v with
         | Some (JArray items) => forallb conforms_item items
         | _ => false
         end
  | _ => false
  end.

(** The handler runs from one suspension point to the next without
    interruption: its trace is cut after every [Await_] event. *)
Definition is_await (ev : event) : bool :=
  match ev with
  | Await_extractTextFromImage _ | Await_generateExpenseJson _
  | Await_saveToGoogleSheets _ _ _ => true
  | _ => false
  end.

Fixpoint segments (trace : list event) : list (list event) :=
  match trace with
  | [] => []
  | ev :: rest =>
      if is_await ev then [ev] :: segments rest
      else match segments rest with
           | [] => [[ev]]
           | seg :: segs => (ev :: seg) :: segs
           end
  end.

(** The partial updates one job issues, in order, read off the completions
    of the services; [loop_body_updates] below shows the handler publishes
    exactly the array after each of them. *)
Definition job_updates (tok sheet : string) (env : JobEnv) : list PartialReceipt :=
  match ocrResponse env with
  | Rejects e => [failure e]
  | Resolves o =>
      if falsy o then
        [failure (Error "Could not extract any text. The image might be unclear.")]
      else
        with_status "Structuring data..." ::
        match completion_of (generateExpenseJson env (default "" o) []) with
        | inl e => [failure e]
        | inr v =>
            with_status_data "Data extracted" v ::
            with_status "Saving to Google Sheets..." ::
            match completion_of (saveToGoogleSheets env v tok sheet []) with
            | inl e => [failure e]
            | inr _ => [with_status_saveStatus "Saved successfully!" success]
            end
        end
  end.

(** The arrays after each of a list of updates applied at one position. *)
Fixpoint states_after (i : nat) (rs : list ProcessedReceipt) (us : list PartialReceipt)
  : list (list ProcessedReceipt) :=
  match us with
  | [] => []
  | u :: us' => merge_at i u rs :: states_after i (merge_at i u rs) us'
  end.

(** No update of a job renames a record or sets it back to pending, and the
    last one settles the job. *)
Definition keeps_identity (u : PartialReceipt) : Prop :=
  upd_id u = None /\ upd_saveStatus u <> Some pending.

(** An array in which every job has reached a terminal state: each id
    resolves to a record that is no longer pending. *)
Definition settled (rs : list ProcessedReceipt) : Prop :=
  forall r, r ∈ rs ->
    exists r', find_by_id (id r) rs = Some r' /\ saveStatus r' <> pending.

(** One pass over a trace that checks that every piece between two
    suspension points publishes a snapshot: [seen] says whether the piece
    being read has published one yet; [None] is a piece that reached its
    [Await_] without publishing. *)
Definition is_publish (ev : event) : bool :=
  match ev with SetProcessedReceipts _ => true | _ => false end.

Fixpoint publishing (seen : bool) (trace : list event) : option bool :=
  match trace with
  | [] => Some seen
  | ev :: rest =>
      if is_await ev then (if seen then publishing false rest else None)
      else publishing (seen || is_publish ev) rest
  end.

(** The record invariants of the data model, and the order of the phases a
    status message stands for. *)
Definition record_ok (r : ProcessedReceipt) : Prop :=
  (saveStatus r = success -> data r <> JNull /\ error r = None) /\
  (saveStatus r = failed -> error r <> None).

Definition phase (status : string) : nat :=
  if String.eqb status "Processing OCR..." then 1
  else if String.eqb status "Structuring data..." then 2
  else if String.eqb status "Data extracted" then 3
  else if String.eqb status "Saving to Google Sheets..." then 4
  else if String.eqb status "Saved successfully!" then 5
  else if String.eqb status "Failed" then 5
  else 0.

(** From one snapshot to the next no record moves to an earlier phase. *)
Definition advances (s s' : list ProcessedReceipt) : Prop :=
  forall k r r', s !! k = Some r -> s' !! k = Some r' ->
    phase (status r) <= phase (status r').

(** [path prev l cur]: the snapshots [l], published after [prev], advance
    one to the next and end in [cur]. *)
Fixpoint path (prev : list ProcessedReceipt) (l : list (list ProcessedReceipt))
    (cur : list ProcessedReceipt) : Prop :=
  match l with
  | [] => prev = cur
  | s :: l' => advances prev s /\ path s l' cur
  end.

(** ** The rest of the App component *)

(** The collaborator calls of a trace, in order, and the files among them
    that were sent to OCR. *)
Definition awaits (trace : list event) : list event := List.filter is_await trace.

Definition extracted_files (trace : list event) : list File :=
  omap (fun ev => match ev with Await_extractTextFromImage f => Some f | _ => None end)
       trace.

(** The React state [isProcessing] after a trace. *)
Definition isProcessing_after (before : bool) (trace : list event) : bool :=
  fold_left (fun st ev => match ev with SetIsProcessing b => b | _ => st end)
            trace before.

(** The [disabled] attribute of the Process button (App, line 152). *)
Definition process_disabled (isProcessing : bool) (imageFiles : list File)
    (googleAccessToken spreadsheetId : string) : bool :=
  isProcessing || (length imageFiles =? 0)%nat || String.eqb googleAccessToken ""
  || String.eqb spreadsheetId "".

(** A session of the App.  The user presses the Process button, whose
    handler was made with the files, token and sheet id selected at that
    time; a handler that is suspended at an [await] resumes when the call it
    waits for settles.  The button delivers a press only while it is not
    disabled (line 152), and [isProcessing] is what the last piece that ran
    left it.  A press that is delivered starts a handler of its own, next to
    those already started: that no two are ever in flight is a theorem, not
    part of the model. *)
Inductive action : Type :=
| Press (jobs : list JobEnv) (googleAccessToken spreadsheetId : string)
| Resume (handler : nat).

Record App : Type := mkApp {
  isProcessing : bool;
  handlers : list (list (list event))  (* the pieces each started handler has still to run *)
}.

Definition initial : App := mkApp false [].

Definition step (state : App) (a : action) : App * list event :=
  match a with
  | Press jobs googleAccessToken spreadsheetId =>
      if process_disabled (isProcessing state) (file <$> jobs) googleAccessToken spreadsheetId
      then (state, [])
      else
        match segments (events_of (run_batch jobs googleAccessToken spreadsheetId)) with
        | piece :: rest =>
            (mkApp (isProcessing_after (isProcessing state) piece) (handlers state ++ [rest]),
             piece)
        | [] => (state, [])
        end
  | Resume h =>
      match handlers state !! h with
      | Some (piece :: rest) =>
          (mkApp (isProcessing_after (isProcessing state) piece)
                 (<[h := rest]> (handlers state)),
           piece)
      | _ => (state, [])
      end
  end.

Fixpoint session (state : App) (acts : list action) : App * list event :=
  match acts with
  | [] => (state, [])
  | a :: acts' =>
      let '(state1, t1) := step state a in
      let '(state2, t2) := session state1 acts' in
      (state2, t1 ++ t2)
  end.

(** The batches of a session run one after the other. *)
Definition batch : Type := list JobEnv * string * string.

Definition batch_trace (b : batch) : list event :=
  let '(jobs, tok, sheet) := b in events_of (run_batch jobs tok sheet).

Definition batch_valid (b : batch) : Prop :=
  let '(jobs, tok, sheet) := b in jobs <> [] /\ tok <> "" /\ sheet <> "".

Definition sequential (bs : list batch) : list event := concat (batch_trace <$> bs).




(** The guard of the error box of a card: whether [receipt.error] is truthy
    ([{receipt.error && ...}], ResultsDashboard, line 59). *)
Definition error_truthy (r : ProcessedReceipt) : bool := negb (falsy (error r)).

(** A record whose error agrees with its save status and whose status is one
    of the six messages of the pipeline. *)
Definition error_consistent (r : ProcessedReceipt) : Prop :=
  (error r = None \/ exists m, error r = Some m /\ m <> "") /\
  (saveStatus r = failed -> error r <> None) /\
  (saveStatus r = pending -> error r = None) /\
  1 <= phase (status r).

(** [SetIsProcessing] events. *)
Definition is_flag (ev : event) : bool :=
  match ev with SetIsProcessing _ => true | _ => false end.

(** [chain R prev l cur]: the states [l], reached after [prev], are related
    one to the next by [R] and end in [cur]. *)
Fixpoint chain {A} (R : A -> A -> Prop) (prev : A) (l : list A) (cur : A) : Prop :=
  match l with
  | [] => prev = cur
  | s :: l' => R prev s /\ chain R s l' cur
  end.

(** From one snapshot to the next the array only grows at its end, by at
    most one record, and no record changes its id or its preview. *)
Definition grows (s s' : list ProcessedReceipt) : Prop :=
  (id <$> s) `prefix_of` (id <$> s') /\
  (imagePreview <$> s) `prefix_of` (imagePreview <$> s') /\
  length s' <= S (length s).

(** The events of the loop: everything but the processing flag and the alert. *)
Definition job_event (ev : event) : bool :=
  match ev with SetIsProcessing _ | Alert _ => false | _ => true end.

(** What a run wrote to the console. *)
Definition logged (trace : list event) : list string :=
  omap (fun ev => match ev with ConsoleError msg => Some msg | _ => None end) trace.

(** ** String and array methods the components call *)

Module Js.

(** [s.split(sep)] for a separator of one character: an empty string gives
    one empty piece. *)
Fixpoint split (sep : ascii) (s : string) : list string :=
  match s with
  | EmptyString => [EmptyString]
  | String c s' =>
      if Ascii.eqb c sep then EmptyString :: split sep s'
      else match split sep s' with
           | piece :: pieces => String c piece :: pieces
           | [] => [String c EmptyString]
           end
  end.

(** [l.join(sep)]. *)
Fixpoint join (sep : string) (l : list string) : string :=
  match l with
  | [] => EmptyString
  | piece :: rest =>
      match rest with
      | [] => piece
      | _ :: _ => piece +:+ sep +:+ join sep rest
      end
  end.

(** [l.slice(start, end)]: negative indices count from the end, and both
    are clamped to the array. *)
Definition slice {A} (l : list A) (start end_ : Z) : list A :=
  let len := Z.of_nat (length l) in
  let from := if (start <? 0)%Z then Z.max (len + start) 0 else Z.min start len in
  let to := if (end_ <? 0)%Z then Z.max (len + end_) 0 else Z.min end_ len in
  take (Z.to_nat (to - from)) (drop (Z.to_nat from) l).

(** [s.includes(needle)]. *)
Fixpoint includes (needle s : string) : bool :=
  String.prefix needle s
  || match s with
     | EmptyString => false
     | String _ s' => includes needle s'
     end.

(** Whether a character occurs in a string. *)
Fixpoint occurs (c : ascii) (s : string) : bool :=
  match s with
  | EmptyString => false
  | String c' s' => Ascii.eqb c' c || occurs c s'
  end.

End Js.

(** ** The results dashboard ([ResultsDashboard.tsx]) *)

(** The dashboard is rendered when [processedReceipts.length > 0] (App,
    line 172). *)
Definition dashboard_shown (processedReceipts : list ProcessedReceipt) : bool :=
  (0 <? length processedReceipts)%nat.

(** The keys of the cards, [key={receipt.id}] (line 23). *)
Definition card_keys (processedReceipts : list ProcessedReceipt) : list string :=
  id <$> processedReceipts.

(** The title of a card, [receipt.id.split('.').slice(0,-1).join('.')]
    (line 50). *)
Definition title_of (receipt_id : string) : string :=
  Js.join "." (Js.slice (Js.split "." receipt_id) 0 (-1)).

Definition card_title (receipt : ProcessedReceipt) : string := title_of (id receipt).

(** The callback of [data.items.map] in [ExpenseDataTable]: it reads
    [item.item] and [item.quantity], which it hands on as children without
    converting them, and calls [item.price.toFixed(2)]. *)
Definition table_row (item : json) : option Thrown :=
  match item with
  | JNull => Some (TypeError "Cannot read properties of null (reading 'item')")
  | _ =>
      match get "price" item with
      | Some (JNumber _ _) => None
      | None => Some (TypeError "Cannot read properties of undefined (reading 'toFixed')")
      | Some JNull => Some (TypeError "Cannot read properties of null (reading 'toFixed')")
      | Some _ => Some (TypeError "item.price.toFixed is not a function")
      end
  end.

Fixpoint table_rows (items : list json) : option Thrown :=
  match items with
  | [] => None
  | item :: rest =>
      match table_row item with
      | Some e => Some e
      | None => table_rows rest
      end
  end.

(** What the body of the function [ExpenseDataTable] (lines 71-99) throws on
    its [data]: it reads [data.merchant] and [data.date], calls
    [data.total.toFixed(2)], then [data.items.map].  What React does with the
    elements the function returns is not part of it. *)
Definition ExpenseDataTable_error (data : json) : option Thrown :=
  match data with
  | JNull => Some (TypeError "Cannot read properties of null (reading 'merchant')")
  | _ =>
      match get "total" data with
      | Some (JNumber _ _) =>
          match get "items" data with
          | Some (JArray items) => table_rows items
          | None => Some (TypeError "Cannot read properties of undefined (reading 'map')")
          | Some JNull => Some (TypeError "Cannot read properties of null (reading 'map')")
          | Some _ => Some (TypeError "data.items.map is not a function")
          end
      | None => Some (TypeError "Cannot read properties of undefined (reading 'toFixed')")
      | Some JNull => Some (TypeError "Cannot read properties of null (reading 'toFixed')")
      | Some _ => Some (TypeError "data.total.toFixed is not a function")
      end
  end.

(** ** The image part sent to the model ([fileToGenerativePart], lines 14-34) *)

(** What the promise of the reader resolves with: [reader.result] is a
    string ([Some]) or not; the answer [None] is [undefined]. *)
Definition base64EncodedData (reader_result : option string) : option string :=
  match reader_result with
  | Some result => Js.split "," result !! 1%nat
  | None => Some EmptyString
  end.

(** ** Choosing the spreadsheet after login ([GoogleSheetsAuth], lines 111-116) *)

Module GoogleSheetsAuth.

Record SpreadsheetFile : Type := mkSheet { id : string; name : string }.

(** The argument of the call of [onSpreadsheetSelected], if it is made. *)
Definition auto_select (sheets : list SpreadsheetFile) (selectedSpreadsheetId : string)
    : option string :=
  if (0 <? length sheets)%nat && String.eqb selectedSpreadsheetId "" then
    match List.find (fun s => Js.includes "Expenses" (name s)) sheets with
    | Some defaultSheet => Some (id defaultSheet)
    | None => None
    end
  else None.

End GoogleSheetsAuth.

(** ** Concrete scenarios *)

(** A response of the structuring model that has the expected shape. *)
Definition dq : string := String dquote EmptyString.

Definition field (key value : string) : string := dq +:+ key +:+ dq +:+ ":" +:+ value.

Definition quoted (s : string) : string := dq +:+ s +:+ dq.

Definition receipt_json : string :=
  "{" +:+ field "merchant" (quoted "Cafe") +:+ ","
      +:+ field "date" (quoted "2024-01-02") +:+ ","
      +:+ field "total" "12.50" +:+ ","
      +:+ field "items"
            ("[{" +:+ field "item" (quoted "tea") +:+ ","
                  +:+ field "quantity" "1" +:+ ","
                  +:+ field "price" "12.5" +:+ "}]")
      +:+ "}".

Definition receipt_value : json :=
  JObject [("merchant", JString "Cafe"); ("date", JString "2024-01-02");
           ("total", JNumber 1250 (-2));
           ("items", JArray [JObject [("item", JString "tea");
                                      ("quantity", JNumber 1 0);
                                      ("price", JNumber 125 (-1))]])].

(** A file for which every stage succeeds. *)
Definition job_ok (file_name : string) (at_ms : N) : JobEnv :=
  {| file := mkFile file_name 204800;
     objectURL := "blob:" +:+ file_name;
     now := at_ms;
     ocrResponse := Resolves (Some "CAFE TEA 12.50");
     jsonResponse := Resolves (Some receipt_json);
     sheetsResponse := Resolves tt |}.

(** The OCR request fails (the browser is offline). *)
Definition job_offline (file_name : string) (at_ms : N) : JobEnv :=
  {| file := mkFile file_name 204800;
     objectURL := "blob:" +:+ file_name;
     now := at_ms;
     ocrResponse := Rejects (mkThrown (Some "Failed to fetch"));
     jsonResponse := Resolves (Some receipt_json);
     sheetsResponse := Resolves tt |}.

(** The OCR model answers with the given text. *)
Definition job_with_text (file_name : string) (at_ms : N) (text : string) : JobEnv :=
  {| file := mkFile file_name 204800;
     objectURL := "blob:" +:+ file_name;
     now := at_ms;
     ocrResponse := Resolves (Some text);
     jsonResponse := Resolves (Some receipt_json);
     sheetsResponse := Resolves tt |}.

(** The structuring model answers with the given text. *)
Definition job_with_json (file_name : string) (at_ms : N) (text : string) : JobEnv :=
  {| file := mkFile file_name 204800;
     objectURL := "blob:" +:+ file_name;
     now := at_ms;
     ocrResponse := Resolves (Some "CAFE TEA 12.50");
     jsonResponse := Resolves (Some text);
     sheetsResponse := Resolves tt |}.

(** The Sheets API refuses the append. *)
Definition job_sheets_refused (file_name : string) (at_ms : N) : JobEnv :=
  {| file := mkFile file_name 204800;
     objectURL := "blob:" +:+ file_name;
     now := at_ms;
     ocrResponse := Resolves (Some "CAFE TEA 12.50");
     jsonResponse := Resolves (Some receipt_json);
     sheetsResponse := Rejects (Error "The caller does not have permission") |}.

(** * Proofs *)

(** ** [findIndex] *)

Section FindIndex.
Context {A : Type} (p : A -> bool).

Lemma findIndex_Some (l : list A) (i : nat) :
  findIndex p l = Some i ->
  exists x, l !! i = Some x /\ p x = true /\
            forall j y, l !! j = Some y -> j < i -> p y = false.
Proof.
  revert i. induction l as [|a l IH]; intros i; simpl; [discriminate|].
  destruct (p a) eqn:Ha.
  - intros [= <-]. exists a. repeat split; auto. intros j y _ Hj. lia.
  - destruct (findIndex p l) as [k|] eqn:Hk; simpl; [|discriminate].
    intros [= <-]. destruct (IH k eq_refl) as (x & Hx & Hpx & Hlt).
    exists x. repeat split; auto.
    intros [|j] y Hy Hj; simpl in Hy.
    + congruence.
    + apply (Hlt j y Hy). lia.
Qed.

Lemma findIndex_None (l : list A) :
  findIndex p l = None <-> forall x, x ∈ l -> p x = false.
Proof.
  induction l as [|a l IH]; simpl.
  - split; [intros _ x Hx; inversion Hx | auto].
  - destruct (p a) eqn:Ha.
    + split; [discriminate|]. intros H. specialize (H a (list_elem_of_here _ _)). congruence.
    + destruct (findIndex p l) as [k|] eqn:Hk; simpl.
      * split; [discriminate|]. intros H.
        assert (Some k = None) by (apply IH; intros x Hx; apply H; by right).
        discriminate.
      * split; [|auto]. intros _ x Hx. inversion Hx; subst; auto.
        by apply IH.
Qed.

Lemma findIndex_first (l : list A) (i : nat) (x : A) :
  l !! i = Some x -> p x = true ->
  (forall j y, l !! j = Some y -> j < i -> p y = false) ->
  findIndex p l = Some i.
Proof.
  revert i. induction l as [|a l IH]; intros [|i] Hx Hp Hlt; simpl in *; try discriminate.
  - injection Hx as ->. by rewrite Hp.
  - rewrite (Hlt 0 a eq_refl) by lia.
    rewrite (IH i Hx Hp); [done|]. intros j y Hy Hj. apply (Hlt (S j) y Hy). lia.
Qed.

Lemma findIndex_app (l1 l2 : list A) :
  findIndex p (l1 ++ l2) =
  match findIndex p l1 with
  | Some i => Some i
  | None => (fun j => length l1 + j) <$> findIndex p l2
  end.
Proof.
  induction l1 as [|a l1 IH]; simpl.
  - by destruct (findIndex p l2).
  - destruct (p a); [done|]. rewrite IH.
    destruct (findIndex p l1); [done|]. by destruct (findIndex p l2).
Qed.

Lemma findIndex_lt (l : list A) (i : nat) : findIndex p l = Some i -> i < length l.
Proof.
  intros H. destruct (findIndex_Some l i H) as (x & Hx & _).
  by apply lookup_lt_Some in Hx.
Qed.

End FindIndex.

Lemma findIndex_fmap {A B} (f : A -> B) (p : B -> bool) (l : list A) :
  findIndex p (f <$> l) = findIndex (fun x => p (f x)) l.
Proof. induction l as [|a l IH]; csimpl; [done|]. by rewrite IH. Qed.

(** Which record an id resolves to depends on the ids alone. *)
Lemma findIndex_has_id (job : string) (rs : list ProcessedReceipt) :
  findIndex (has_id job) rs = findIndex (fun i => String.eqb i job) (id <$> rs).
Proof. by rewrite findIndex_fmap. Qed.

Lemma has_id_true (job : string) (r : ProcessedReceipt) : has_id job r = true <-> id r = job.
Proof. unfold has_id. apply String.eqb_eq. Qed.

Lemma has_id_false (job : string) (r : ProcessedReceipt) : has_id job r = false <-> id r <> job.
Proof. unfold has_id. apply String.eqb_neq. Qed.

(** ** The store: [spread] and [updateResult] *)

Lemma spread_idem (r : ProcessedReceipt) (u : PartialReceipt) :
  spread (spread r u) u = spread r u.
Proof. by destruct r, u as [[?|] [?|] [?|] [?|] [?|] [?|]]. Qed.

Lemma spread_id_keep (r : ProcessedReceipt) (u : PartialReceipt) :
  upd_id u = None -> id (spread r u) = id r.
Proof. intros H. unfold spread; simpl. by rewrite H. Qed.

Lemma fmap_id_alter (f : ProcessedReceipt -> ProcessedReceipt) (i : nat)
    (rs : list ProcessedReceipt) :
  (forall r, id (f r) = id r) -> id <$> alter f i rs = id <$> rs.
Proof.
  intros Hf. rewrite (list_fmap_alter id f (fun x => x) rs i).
  - by apply list_alter_id.
  - apply Forall_forall. intros r _. apply Hf.
Qed.

Lemma updateResult_found (job : string) (u : PartialReceipt)
    (rs : list ProcessedReceipt) (i : nat) :
  findIndex (has_id job) rs = Some i ->
  updateResult job u rs
  = (merge_at i u rs, [SetProcessedReceipts (merge_at i u rs)], inr tt).
Proof. intros H. unfold updateResult. by rewrite H. Qed.

Lemma updateResult_missing (job : string) (u : PartialReceipt)
    (rs : list ProcessedReceipt) :
  findIndex (has_id job) rs = None -> updateResult job u rs = (rs, [], inr tt).
Proof. intros H. unfold updateResult. by rewrite H. Qed.

Lemma findIndex_alter_keep (job : string) (u : PartialReceipt) (i : nat)
    (rs : list ProcessedReceipt) :
  upd_id u = None ->
  findIndex (has_id job) (merge_at i u rs) = findIndex (has_id job) rs.
Proof.
  intros Hu. unfold merge_at. rewrite !findIndex_has_id, fmap_id_alter; [done|].
  intros r. by apply spread_id_keep.
Qed.

(** C7. A merge-update whose id matches no record is a silent no-op: it
    returns normally, publishes nothing and leaves the array as it was.  When
    some record carries the id, the first such record is replaced by its
    merge with the update, every other position is untouched, the length is
    kept, and in the replaced record every field the update does not name
    keeps its value while every named field takes the given one. *)
Theorem updateResult_noop_or_merge
    (job : string) (update : PartialReceipt) (results : list ProcessedReceipt) :
  ((forall r, r ∈ results -> id r <> job) ->
     updateResult job update results = (results, [], inr tt))
  /\
  ((exists r, r ∈ results /\ id r = job) ->
     exists i r r',
       results !! i = Some r /\ id r = job /\
       (forall j x, results !! j = Some x -> j < i -> id x <> job) /\
       completion_of (updateResult job update results) = inr tt /\
       events_of (updateResult job update results)
         = [SetProcessedReceipts (results_of (updateResult job update results))] /\
       length (results_of (updateResult job update results)) = length results /\
       results_of (updateResult job update results) !! i = Some r' /\
       (forall j, j <> i ->
          results_of (updateResult job update results) !! j = results !! j) /\
       id r' = default (id r) (upd_id update) /\
       imagePreview r' = default (imagePreview r) (upd_imagePreview update) /\
       status r' = default (status r) (upd_status update) /\
       data r' = default (data r) (upd_data update) /\
       saveStatus r' = default (saveStatus r) (upd_saveStatus update) /\
       error r' = default (error r) (upd_error update)).
Proof.
  split.
  - intros Habs. apply updateResult_missing, findIndex_None.
    intros r Hr. apply has_id_false. by apply Habs.
  - intros (r0 & Hr0 & Hid0).
    destruct (findIndex (has_id job) results) as [i|] eqn:Hi.
    2:{ pose proof (proj1 (findIndex_None _ _) Hi r0 Hr0) as Hf.
        apply has_id_false in Hf. contradiction. }
    destruct (findIndex_Some _ _ _ Hi) as (r & Hr & Hp & Hlt).
    exists i, r, (spread r update).
    rewrite (updateResult_found _ _ _ _ Hi).
    unfold completion_of, events_of, results_of, merge_at; simpl.
    split; [done|]. split; [by apply has_id_true|].
    split; [intros j x Hx Hj; apply has_id_false; eauto|].
    split; [done|]. split; [done|].
    split; [apply length_alter|].
    split; [by rewrite list_lookup_alter_eq, Hr|].
    split; [intros j Hj; by apply list_lookup_alter_ne|].
    by repeat split.
Qed.

(** C10. Applying the same partial update twice in succession leaves the
    array, and what observers see, exactly as applying it once.  This holds
    of every update that does not name the [id] field, and none of the
    updates [handleProcessReceipts] passes to [updateResult] does (lines 77,
    82, 85, 90, 95; [job_updates_keep]); it also holds of an update that
    names the id when the ids in the array are pairwise distinct. *)
Theorem updateResult_idempotent
    (job : string) (update : PartialReceipt) (results before : list ProcessedReceipt) :
  upd_id update = None \/ NoDup (id <$> results) ->
  let once := updateResult job update results in
  let twice := updateResult job update (results_of once) in
  results_of twice = results_of once /\
  completion_of twice = inr tt /\
  observed before (events_of once ++ events_of twice) = observed before (events_of once).
Proof.
  intros Hcase; simpl.
  destruct (findIndex (has_id job) results) as [i|] eqn:Hi.
  2:{ rewrite (updateResult_missing _ _ _ Hi).
      unfold results_of, completion_of, events_of, observed; simpl.
      by rewrite (updateResult_missing _ _ _ Hi). }
  rewrite (updateResult_found _ _ _ _ Hi).
  unfold results_of, completion_of, events_of, observed, merge_at; simpl.
  set (rs1 := alter (fun r => spread r update) i results).
  destruct (findIndex_Some _ _ _ Hi) as (r & Hr & Hp & Hlt).
  apply has_id_true in Hp.
  assert (Hsame : id (spread r update) = job ->
            updateResult job update rs1 = (rs1, [SetProcessedReceipts rs1], inr tt)).
  { intros Hkeep.
    assert (Hi1 : findIndex (has_id job) rs1 = Some i).
    { apply findIndex_first with (x := spread r update).
      - unfold rs1. by rewrite list_lookup_alter_eq, Hr.
      - by apply has_id_true.
      - intros j y Hy Hj. unfold rs1 in Hy.
        rewrite list_lookup_alter_ne in Hy by lia. apply has_id_false.
        apply (Hlt j y Hy) in Hj. by apply has_id_false in Hj. }
    rewrite (updateResult_found _ _ _ _ Hi1). unfold merge_at, rs1.
    rewrite list_alter_alter_eq.
    rewrite (list_alter_ext _ (fun r => spread r update) results results i);
      [done| |done].
    intros x _. apply spread_idem. }
  destruct (decide (id (spread r update) = job)) as [Hkeep|Hmove].
  { by rewrite (Hsame Hkeep). }
  destruct Hcase as [Hnone|Hnodup].
  { exfalso. apply Hmove. by rewrite spread_id_keep. }
  assert (Hgone : findIndex (has_id job) rs1 = None).
  { apply findIndex_None. intros x Hx. apply has_id_false.
    apply list_elem_of_lookup in Hx as [j Hj]. unfold rs1 in Hj.
    destruct (decide (i = j)) as [<-|Hne].
    - rewrite list_lookup_alter_eq, Hr in Hj. simpl in Hj. by injection Hj as <-.
    - rewrite list_lookup_alter_ne in Hj by done. intros Hx.
      apply Hne. apply (NoDup_lookup (id <$> results) i j job); [done| |].
      + by rewrite list_lookup_fmap, Hr; simpl; rewrite Hp.
      + by rewrite list_lookup_fmap, Hj; simpl; rewrite Hx. }
  by rewrite (updateResult_missing _ _ _ Hgone).
Qed.

(** ** Symbolic execution of one loop iteration *)

Arguments updateResult : simpl never.
Arguments merge_at : simpl never.
Arguments generateExpenseJson : simpl never.
Arguments saveToGoogleSheets : simpl never.

Lemma target_found (rs : list ProcessedReceipt) (env : JobEnv) :
  findIndex (has_id (job_id env)) (rs ++ [initialResult env]) = Some (target rs env).
Proof.
  rewrite findIndex_app. unfold target.
  destruct (findIndex (has_id (job_id env)) rs); simpl; [done|].
  unfold has_id; simpl. rewrite String.eqb_refl. simpl. f_equal. lia.
Qed.

Lemma target_le (rs : list ProcessedReceipt) (env : JobEnv) : target rs env <= length rs.
Proof.
  unfold target. destruct (findIndex _ rs) eqn:H; simpl; [|lia].
  apply findIndex_lt in H. lia.
Qed.

Lemma target_fresh (rs : list ProcessedReceipt) (env : JobEnv) :
  job_id env ∉ (id <$> rs) -> target rs env = length rs.
Proof.
  intros Hfresh. unfold target.
  destruct (findIndex (has_id (job_id env)) rs) as [i|] eqn:Hi; [|done].
  destruct (findIndex_Some _ _ _ Hi) as (x & Hx & Hp & _).
  exfalso. apply Hfresh. apply has_id_true in Hp. rewrite <- Hp.
  apply list_elem_of_fmap. exists x. split; [done|]. by eapply list_elem_of_lookup_2.
Qed.

(** The services neither read nor write the array. *)
Lemma generateExpenseJson_frame (env : JobEnv) (t : string) (rs : list ProcessedReceipt) :
  generateExpenseJson env t rs
  = (rs, events_of (generateExpenseJson env t []),
     completion_of (generateExpenseJson env t [])).
Proof.
  unfold generateExpenseJson, bind, try_catch, await, emit, throw, ret,
    events_of, completion_of.
  destruct (jsonResponse env) as [e|[s|]]; simpl; [done| |done].
  by destruct (JSON_parse (trim s)).
Qed.

Lemma saveToGoogleSheets_frame (env : JobEnv) (v : json) (tok sheet : string)
    (rs : list ProcessedReceipt) :
  saveToGoogleSheets env v tok sheet rs
  = (rs, [Await_saveToGoogleSheets v tok sheet],
     completion_of (saveToGoogleSheets env v tok sheet [])).
Proof. reflexivity. Qed.

Lemma bind_run {A B} (m : M A) (k : A -> M B) (rs : list ProcessedReceipt) :
  bind m k rs =
  match m rs with
  | (rs', evs, inl e) => (rs', evs, inl e)
  | (rs', evs, inr a) => let '(rs'', evs', r) := k a rs' in (rs'', evs ++ evs', r)
  end.
Proof. reflexivity. Qed.

Section JobExec.
Variables (tok sheet : string) (env : JobEnv).

Lemma try_catch_exec (rs : list ProcessedReceipt) (i : nat) :
  findIndex (has_id (job_id env)) rs = Some i ->
  try_catch (try_block tok sheet env) (catch_block env) rs =
  let fail e l := merge_at i (failure e) l in
  let X := Await_extractTextFromImage (file env) in
  match ocrResponse env with
  | Rejects e => (fail e rs, [X; SetProcessedReceipts (fail e rs)], inr tt)
  | Resolves o =>
      if falsy o then
        let e := Error "Could not extract any text. The image might be unclear." in
        (fail e rs, [X; SetProcessedReceipts (fail e rs)], inr tt)
      else
        let t := default "" o in
        let rs1 := merge_at i (with_status "Structuring data...") rs in
        let J := events_of (generateExpenseJson env t []) in
        match completion_of (generateExpenseJson env t []) with
        | inl e =>
            (fail e rs1,
             [X; SetProcessedReceipts rs1] ++ J ++ [SetProcessedReceipts (fail e rs1)],
             inr tt)
        | inr v =>
            let rs2 := merge_at i (with_status_data "Data extracted" v) rs1 in
            let rs3 := merge_at i (with_status "Saving to Google Sheets...") rs2 in
            let S := Await_saveToGoogleSheets v tok sheet in
            match completion_of (saveToGoogleSheets env v tok sheet []) with
            | inl e =>
                (fail e rs3,
                 [X; SetProcessedReceipts rs1] ++ J ++
                 [SetProcessedReceipts rs2; SetProcessedReceipts rs3; S;
                  SetProcessedReceipts (fail e rs3)],
                 inr tt)
            | inr _ =>
                let rs4 :=
                  merge_at i (with_status_saveStatus "Saved successfully!" success) rs3 in
                (rs4,
                 [X; SetProcessedReceipts rs1] ++ J ++
                 [SetProcessedReceipts rs2; SetProcessedReceipts rs3; S;
                  SetProcessedReceipts rs4],
                 inr tt)
            end
        end
  end.
Proof.
  intros Hi.
  assert (Hk : forall u l, upd_id u = None ->
            findIndex (has_id (job_id env)) l = Some i ->
            findIndex (has_id (job_id env)) (merge_at i u l) = Some i).
  { intros u l Hu Hl. by rewrite findIndex_alter_keep. }
  unfold try_catch, try_block, catch_block, extractTextFromImage.
  rewrite bind_run. unfold await.
  change (id (initialResult env)) with (job_id env).
  destruct (ocrResponse env) as [e|o]; simpl.
  { by rewrite (updateResult_found _ _ _ _ Hi). }
  rewrite bind_run. destruct (falsy o) eqn:Ho; simpl.
  { unfold throw; simpl. by rewrite (updateResult_found _ _ _ _ Hi). }
  rewrite bind_run.
  rewrite (updateResult_found _ _ _ _ Hi); simpl.
  set (rs1 := merge_at i (with_status "Structuring data...") rs).
  assert (H1 : findIndex (has_id (job_id env)) rs1 = Some i) by (by apply Hk).
  rewrite bind_run. rewrite generateExpenseJson_frame.
  destruct (completion_of (generateExpenseJson env (default "" o) [])) as [e|v]; simpl.
  { rewrite (updateResult_found _ _ _ _ H1); simpl. by rewrite <- ?app_assoc. }
  rewrite bind_run.
  rewrite (updateResult_found _ _ _ _ H1); simpl.
  set (rs2 := merge_at i (with_status_data "Data extracted" v) rs1).
  assert (H2 : findIndex (has_id (job_id env)) rs2 = Some i) by (by apply Hk).
  rewrite bind_run.
  rewrite (updateResult_found _ _ _ _ H2); simpl.
  set (rs3 := merge_at i (with_status "Saving to Google Sheets...") rs2).
  assert (H3 : findIndex (has_id (job_id env)) rs3 = Some i) by (by apply Hk).
  rewrite bind_run. rewrite saveToGoogleSheets_frame.
  unfold saveToGoogleSheets, await, completion_of; simpl.
  destruct (row_error v) as [e|]; [|destruct (sheetsResponse env) as [e|[]]]; simpl;
    rewrite (updateResult_found _ _ _ _ H3); simpl; by rewrite <- ?app_assoc.
Qed.

Lemma loop_body_exec (rs : list ProcessedReceipt) :
  loop_body tok sheet env rs =
  let rs0 := rs ++ [initialResult env] in
  let '(rs', evs, r) :=
    try_catch (try_block tok sheet env) (catch_block env) rs0 in
  (rs', SetProcessedReceipts rs0 :: evs, r).
Proof.
  unfold loop_body, bind, push, publish; simpl.
  by destruct (try_catch _ _ _) as [[? ?] ?].
Qed.

End JobExec.

(** ** Batch preconditions *)

(** C8. When the image set is empty or the access token or the spreadsheet
    id is missing, the handler shows the validation message and returns at
    once: no record is created, nothing is published, no collaborator is
    called, and what observers see is what they saw before. *)
Theorem unmet_preconditions_leave_no_state
    (jobs : list JobEnv) (tok sheet : string) (before : list ProcessedReceipt) :
  jobs = [] \/ tok = "" \/ sheet = "" ->
  run_batch jobs tok sheet
    = ([], [Alert "Please upload images and connect to Google Sheets."], inr tt) /\
  snapshots (events_of (run_batch jobs tok sheet)) = [] /\
  (forall ev, ev ∈ events_of (run_batch jobs tok sheet) -> is_await ev = false) /\
  observed before (events_of (run_batch jobs tok sheet)) = before.
Proof.
  intros Hpre.
  assert (Hrun : run_batch jobs tok sheet
            = ([], [Alert "Please upload images and connect to Google Sheets."], inr tt)).
  { unfold run_batch, handleProcessReceipts.
    destruct Hpre as [-> | [-> | ->]]; [reflexivity| |].
    - cbn [String.eqb]. by rewrite orb_true_r.
    - cbn [String.eqb]. by rewrite orb_true_r. }
  rewrite Hrun. unfold events_of; simpl.
  repeat split; auto.
  intros ev Hev. apply list_elem_of_singleton in Hev. by subst.
Qed.

(** With the preconditions met the handler announces processing and clears
    the published collection before anything else. *)
Lemma handleProcessReceipts_valid (jobs : list JobEnv) (tok sheet : string)
    (rs : list ProcessedReceipt) :
  jobs <> [] -> tok <> "" -> sheet <> "" ->
  handleProcessReceipts jobs tok sheet rs =
  let '(rs', evs, r) := for_of jobs (loop_body tok sheet) rs in
  match r with
  | inl e => (rs', SetIsProcessing true :: SetProcessedReceipts [] :: evs, inl e)
  | inr _ =>
      (rs', SetIsProcessing true :: SetProcessedReceipts [] :: evs ++ [SetIsProcessing false],
       inr tt)
  end.
Proof.
  intros Hj Ht Hs. unfold handleProcessReceipts.
  assert (Hl : (length jobs =? 0)%nat = false) by (by destruct jobs).
  apply String.eqb_neq in Ht, Hs. rewrite Hl, Ht, Hs. cbn [orb].
  unfold bind, emit. simpl.
  by destruct (for_of jobs _ rs) as [[rs' evs] [e|[]]].
Qed.

(** ** The structuring service *)

Lemma generateExpenseJson_completion (env : JobEnv) (t : string) :
  completion_of (generateExpenseJson env t []) =
  match jsonResponse env with
  | Rejects e => inl e
  | Resolves None =>
      inl (Error
        "AI failed to generate a valid data structure. The receipt might be ambiguous.")
  | Resolves (Some s) =>
      match JSON_parse (trim s) with
      | Some v => inr v
      | None =>
          inl (Error
            "AI failed to generate a valid data structure. The receipt might be ambiguous.")
      end
  end.
Proof.
  unfold generateExpenseJson, bind, try_catch, await, emit, throw, ret, completion_of.
  destruct (jsonResponse env) as [e|[s|]]; simpl; [done| |done].
  by destruct (JSON_parse (trim s)).
Qed.

Lemma generateExpenseJson_events (env : JobEnv) (t : string) :
  events_of (generateExpenseJson env t []) = [Await_generateExpenseJson t]
  \/ events_of (generateExpenseJson env t [])
     = [Await_generateExpenseJson t;
        ConsoleError "Failed to parse JSON response from Gemini:"].
Proof.
  unfold generateExpenseJson, bind, try_catch, await, emit, throw, ret, events_of.
  destruct (jsonResponse env) as [e|[s|]]; simpl; [by left| |by right].
  destruct (JSON_parse (trim s)); simpl; [by left|by right].
Qed.

Lemma generateExpenseJson_events_ok (env : JobEnv) (t : string) (v : json) :
  completion_of (generateExpenseJson env t []) = inr v ->
  events_of (generateExpenseJson env t []) = [Await_generateExpenseJson t].
Proof.
  unfold generateExpenseJson, bind, try_catch, await, emit, throw, ret,
    events_of, completion_of.
  destruct (jsonResponse env) as [e|[s|]]; simpl; [done| |done].
  by destruct (JSON_parse (trim s)).
Qed.

(** ** Lookup by id along a job's updates *)

Lemma find_by_id_merge (job : string) (i : nat) (u : PartialReceipt)
    (rs : list ProcessedReceipt) :
  findIndex (has_id job) rs = Some i -> upd_id u = None ->
  find_by_id job (merge_at i u rs) = ((fun r => spread r u) <$> (find_by_id job rs)).
Proof.
  intros Hi Hu. unfold find_by_id. rewrite findIndex_alter_keep by done.
  rewrite Hi. unfold merge_at. by rewrite list_lookup_alter_eq.
Qed.

Lemma find_by_id_pushed (rs : list ProcessedReceipt) (env : JobEnv) :
  exists r, find_by_id (job_id env) (rs ++ [initialResult env]) = Some r /\
            id r = job_id env /\
            (job_id env ∉ (id <$> rs) -> r = initialResult env).
Proof.
  pose proof (target_found rs env) as Hi. unfold find_by_id. rewrite Hi.
  destruct (findIndex_Some _ _ _ Hi) as (r & Hr & Hp & _).
  exists r. split; [done|]. split; [by apply has_id_true|].
  intros Hfresh. rewrite (target_fresh _ _ Hfresh) in Hr.
  rewrite lookup_app_r, Nat.sub_diag in Hr by lia. by injection Hr.
Qed.

Lemma elem_of_snapshots (s : list ProcessedReceipt) (tr : list event) :
  s ∈ snapshots tr <-> SetProcessedReceipts s ∈ tr.
Proof.
  unfold snapshots. rewrite list_elem_of_omap. split.
  - intros (ev & Hev & Hs). destruct ev; try discriminate. by injection Hs as ->.
  - intros H. by exists (SetProcessedReceipts s).
Qed.

Lemma falsy_Some (t : string) : t <> "" -> falsy (Some t) = false.
Proof. intros H. by apply String.eqb_neq. Qed.

(** The run of one job whose text was extracted and structured. *)
Lemma loop_body_structured (tok sheet : string) (env : JobEnv)
    (rs : list ProcessedReceipt) (t : string) (v : json) :
  ocrResponse env = Resolves (Some t) -> t <> "" ->
  completion_of (generateExpenseJson env t []) = inr v ->
  let i := target rs env in
  let rs0 := rs ++ [initialResult env] in
  let rs1 := merge_at i (with_status "Structuring data...") rs0 in
  let rs2 := merge_at i (with_status_data "Data extracted" v) rs1 in
  let rs3 := merge_at i (with_status "Saving to Google Sheets...") rs2 in
  let last :=
    match completion_of (saveToGoogleSheets env v tok sheet []) with
    | inl e => merge_at i (failure e) rs3
    | inr _ => merge_at i (with_status_saveStatus "Saved successfully!" success) rs3
    end in
  loop_body tok sheet env rs
  = (last,
     [SetProcessedReceipts rs0; Await_extractTextFromImage (file env);
      SetProcessedReceipts rs1; Await_generateExpenseJson t;
      SetProcessedReceipts rs2; SetProcessedReceipts rs3;
      Await_saveToGoogleSheets v tok sheet; SetProcessedReceipts last],
     inr tt).
Proof.
  intros Hocr Ht Hv. cbv zeta.
  rewrite loop_body_exec. cbv zeta.
  rewrite (try_catch_exec tok sheet env _ _ (target_found rs env)). cbv zeta.
  rewrite Hocr, (falsy_Some _ Ht). change (default "" (Some t)) with t.
  rewrite Hv, (generateExpenseJson_events_ok _ _ _ Hv).
  by destruct (completion_of (saveToGoogleSheets env v tok sheet [])).
Qed.

(** C9 (as amended). The structuring service throws its descriptive error
    exactly when the upstream response carries no text or its trimmed text
    does not parse as JSON (a failure of the upstream call itself is passed
    on unchanged).  The parsed value is not checked against the expected
    shape: whatever parses is returned, is attached to the job as its data,
    and takes the job to "Saving to Google Sheets..." and to the call of the
    persistence service. *)
Theorem structuring_fails_exactly_on_unparsable_text
    (tok sheet : string) (env : JobEnv) (t : string) (rs : list ProcessedReceipt) :
  let descriptive :=
    Error "AI failed to generate a valid data structure. The receipt might be ambiguous." in
  (forall e, jsonResponse env = Rejects e ->
     completion_of (generateExpenseJson env t []) = inl e) /\
  (forall o, jsonResponse env = Resolves o ->
     (completion_of (generateExpenseJson env t []) = inl descriptive
      <-> o = None \/ exists s, o = Some s /\ JSON_parse (trim s) = None) /\
     (forall s v, o = Some s -> JSON_parse (trim s) = Some v ->
        completion_of (generateExpenseJson env t []) = inr v)) /\
  (forall v, ocrResponse env = Resolves (Some t) -> t <> "" ->
     completion_of (generateExpenseJson env t []) = inr v ->
     exists s, s ∈ snapshots (events_of (loop_body tok sheet env rs)) /\
       (exists r, find_by_id (job_id env) s = Some r /\
                  status r = "Saving to Google Sheets..." /\ data r = v) /\
       Await_saveToGoogleSheets v tok sheet ∈ events_of (loop_body tok sheet env rs)).
Proof.
  cbv zeta. split; [|split].
  - intros e He. by rewrite generateExpenseJson_completion, He.
  - intros o Ho. rewrite generateExpenseJson_completion, Ho. split.
    + destruct o as [s|]; [|by split; [left|]].
      destruct (JSON_parse (trim s)) as [v|] eqn:Hp.
      * split; [discriminate|]. intros [?|(s' & [= <-] & Hs')]; congruence.
      * split; [|done]. intros _. right. by exists s.
    + intros s v -> Hp. by rewrite Hp.
  - intros v Hocr Ht Hv.
    pose proof (loop_body_structured tok sheet env rs t v Hocr Ht Hv) as Hrun.
    cbv zeta in Hrun. rewrite Hrun. unfold events_of; cbn [fst snd].
    pose proof (target_found rs env) as H0.
    destruct (find_by_id_pushed rs env) as (r0 & Hr0 & _).
    eexists. split; [|split].
    + apply elem_of_snapshots. do 5 right. left.
    + rewrite !find_by_id_merge, Hr0; try done;
        rewrite ?findIndex_alter_keep by done; try exact H0.
      cbn. eexists. split; [reflexivity|]. by split.
    + do 6 right. left.
Qed.

(** ** Single jobs *)

Lemma merge_at_last (rs : list ProcessedReceipt) (r : ProcessedReceipt)
    (u : PartialReceipt) :
  merge_at (length rs) u (rs ++ [r]) = rs ++ [spread r u].
Proof.
  unfold merge_at. replace (length rs) with (length rs + 0) at 1 by lia.
  by rewrite alter_app_r.
Qed.

(** C2 (as amended). A job whose extraction returns an empty text (the
    empty string, or no text at all) goes from its initial record directly to
    Failed: the run publishes the initial record, calls extraction, publishes
    the failure and stops, so structuring is never called; the record its id
    resolves to ends with status "Failed", the exact extraction message and
    saveStatus failed; and when no earlier record carries its id that record
    is the job's own, with data still null. *)
Theorem empty_extraction_fails_without_structuring
    (tok sheet : string) (env : JobEnv) (rs : list ProcessedReceipt)
    (o : option string) :
  ocrResponse env = Resolves o -> o = None \/ o = Some "" ->
  let run := loop_body tok sheet env rs in
  let msg := "Could not extract any text. The image might be unclear." in
  completion_of run = inr tt /\
  events_of run
    = [SetProcessedReceipts (rs ++ [initialResult env]);
       Await_extractTextFromImage (file env);
       SetProcessedReceipts (results_of run)] /\
  (forall t, Await_generateExpenseJson t ∉ events_of run) /\
  (exists r, find_by_id (job_id env) (results_of run) = Some r /\
             status r = "Failed" /\ error r = Some msg /\ saveStatus r = failed) /\
  (job_id env ∉ (id <$> rs) ->
     results_of run
     = rs ++ [{| id := job_id env; imagePreview := objectURL env; status := "Failed";
                 data := JNull; saveStatus := failed; error := Some msg |}]).
Proof.
  intros Hocr Ho. cbv zeta.
  assert (Hf : falsy o = true) by (by destruct Ho as [-> | ->]).
  rewrite loop_body_exec. cbv zeta.
  rewrite (try_catch_exec tok sheet env _ _ (target_found rs env)). cbv zeta.
  rewrite Hocr, Hf. unfold completion_of, events_of, results_of; cbn [fst snd].
  split; [done|]. split; [done|]. split; [|split].
  - intros t Ht. rewrite !elem_of_cons in Ht.
    destruct Ht as [Ht|[Ht|[Ht|Ht]]]; try discriminate. inversion Ht.
  - destruct (find_by_id_pushed rs env) as (r0 & Hr0 & _).
    rewrite find_by_id_merge, Hr0; [|apply target_found|done].
    eexists. split; [reflexivity|]. by cbn.
  - intros Hfresh. rewrite (target_fresh _ _ Hfresh). by rewrite merge_at_last.
Qed.

(** C1. A job whose text was extracted and structured into [v] has [v] as
    the data of the record its id resolves to when the persistence service is
    called (the call is the first in the run); every snapshot published
    afterwards still shows [v] there; and when persistence throws [e], the
    job ends with that record holding data [v], saveStatus failed, status
    "Failed" and as error the message of [e] (the generic text when [e] has
    none).  When no earlier record carries the id, that record is the job's
    own, the last of the array. *)
Theorem structured_data_survives_persistence_failure
    (tok sheet : string) (env : JobEnv) (rs : list ProcessedReceipt)
    (t : string) (v : json) :
  ocrResponse env = Resolves (Some t) -> t <> "" ->
  completion_of (generateExpenseJson env t []) = inr v ->
  let run := loop_body tok sheet env rs in
  exists pre post,
    events_of run = pre ++ Await_saveToGoogleSheets v tok sheet :: post /\
    (forall d a b, Await_saveToGoogleSheets d a b ∉ pre) /\
    (exists r, find_by_id (job_id env) (observed rs pre) = Some r /\ data r = v) /\
    (forall s, s ∈ snapshots post ->
       exists r, find_by_id (job_id env) s = Some r /\ data r = v) /\
    (forall e, completion_of (saveToGoogleSheets env v tok sheet []) = inl e ->
       exists r, find_by_id (job_id env) (results_of run) = Some r /\
                 data r = v /\ saveStatus r = failed /\ status r = "Failed" /\
                 error r = Some (or_else (message e) "An unknown error occurred.")) /\
    (job_id env ∉ (id <$> rs) ->
       find_by_id (job_id env) (results_of run) = results_of run !! length rs).
Proof.
  intros Hocr Ht Hv. cbv zeta.
  pose proof (loop_body_structured tok sheet env rs t v Hocr Ht Hv) as Hrun.
  cbv zeta in Hrun. rewrite Hrun. clear Hrun.
  generalize (completion_of (saveToGoogleSheets env v tok sheet [])). intros c.
  unfold events_of, results_of; cbn [fst snd].
  pose proof (target_found rs env) as H0.
  destruct (find_by_id_pushed rs env) as (r0 & Hr0 & _).
  set (i := target rs env) in *.
  set (rs3 := merge_at i (with_status "Saving to Google Sheets...") _).
  assert (H3 : findIndex (has_id (job_id env)) rs3 = Some i).
  { unfold rs3. by rewrite !findIndex_alter_keep. }
  assert (Hd3 : exists r, find_by_id (job_id env) rs3 = Some r /\ data r = v).
  { unfold rs3. rewrite !find_by_id_merge, Hr0; try done;
      rewrite ?findIndex_alter_keep by done; try exact H0.
    eexists. by split. }
  destruct Hd3 as (r3 & Hr3 & Hdata3).
  eexists [_; _; _; _; _; _], [_]. split; [reflexivity|].
  split; [|split; [|split; [|split]]].
  - intros d a b Hin. rewrite !elem_of_cons in Hin.
    destruct Hin as [Hin|[Hin|[Hin|[Hin|[Hin|[Hin|Hin]]]]]]; try discriminate.
    inversion Hin.
  - exists r3. by split.
  - intros s Hs. apply elem_of_snapshots, list_elem_of_singleton in Hs.
    injection Hs as ->.
    destruct c as [e|[]]; rewrite find_by_id_merge, Hr3 by done; eexists;
      (split; [reflexivity|]); by rewrite <- Hdata3.
  - intros e ->. rewrite find_by_id_merge, Hr3 by done.
    eexists. split; [reflexivity|]. by rewrite <- Hdata3.
  - intros Hfresh. unfold find_by_id.
    assert (Hl : findIndex (has_id (job_id env))
              match c with
              | inl e => merge_at i (failure e) rs3
              | inr _ =>
                  merge_at i (with_status_saveStatus "Saved successfully!" success) rs3
              end = Some (length rs)).
    { rewrite <- (target_fresh _ _ Hfresh). fold i.
      destruct c; by rewrite findIndex_alter_keep. }
    by rewrite Hl.
Qed.

(** ** One job as a sequence of updates *)

Lemma snapshots_app (t1 t2 : list event) :
  snapshots (t1 ++ t2) = snapshots t1 ++ snapshots t2.
Proof. unfold snapshots. apply omap_app. Qed.

Lemma snapshots_cons (ev : event) (tr : list event) :
  snapshots (ev :: tr) =
  match ev with
  | SetProcessedReceipts s => s :: snapshots tr
  | _ => snapshots tr
  end.
Proof. by destruct ev. Qed.

Lemma generateExpenseJson_no_snapshot (env : JobEnv) (t : string) :
  snapshots (events_of (generateExpenseJson env t [])) = [].
Proof. by destruct (generateExpenseJson_events env t) as [-> | ->]. Qed.

Lemma loop_body_updates (tok sheet : string) (env : JobEnv) (rs : list ProcessedReceipt) :
  let rs0 := rs ++ [initialResult env] in
  let i := target rs env in
  let us := job_updates tok sheet env in
  completion_of (loop_body tok sheet env rs) = inr tt /\
  results_of (loop_body tok sheet env rs) = foldl (fun s u => merge_at i u s) rs0 us /\
  snapshots (events_of (loop_body tok sheet env rs)) = rs0 :: states_after i rs0 us.
Proof.
  cbv zeta. rewrite loop_body_exec. cbv zeta.
  rewrite (try_catch_exec tok sheet env _ _ (target_found rs env)). cbv zeta.
  unfold job_updates.
  destruct (ocrResponse env) as [e|o]; [done|].
  destruct (falsy o); [done|].
  destruct (completion_of (generateExpenseJson env (default "" o) [])) as [e|v].
  { cbn [completion_of results_of events_of fst snd].
    split; [done|]. split; [done|].
    cbn [app].
    by rewrite !snapshots_cons, snapshots_app, generateExpenseJson_no_snapshot. }
  destruct (completion_of (saveToGoogleSheets env v tok sheet [])) as [e|[]];
    cbn [completion_of results_of events_of fst snd];
    (split; [done|]); (split; [done|]);
    cbn [app];
    by rewrite !snapshots_cons, snapshots_app, generateExpenseJson_no_snapshot.
Qed.

Lemma job_updates_keep (tok sheet : string) (env : JobEnv) :
  Forall keeps_identity (job_updates tok sheet env).
Proof.
  unfold job_updates, keeps_identity.
  destruct (ocrResponse env) as [e|o]; [by repeat constructor|].
  destruct (falsy o); [by repeat constructor|].
  destruct (completion_of (generateExpenseJson _ _ _)) as [e|v]; [by repeat constructor|].
  destruct (completion_of (saveToGoogleSheets _ _ _ _ _)) as [e|[]]; by repeat constructor.
Qed.

Lemma job_updates_end (tok sheet : string) (env : JobEnv) :
  exists us u, job_updates tok sheet env = us ++ [u] /\
    (upd_saveStatus u = Some success \/ upd_saveStatus u = Some failed).
Proof.
  unfold job_updates.
  destruct (ocrResponse env) as [e|o]; [exists [], (failure e); by split; [|right]|].
  destruct (falsy o); [eexists [], _; by split; [|right]|].
  destruct (completion_of (generateExpenseJson _ _ _)) as [e|v];
    [eexists [_], _; by split; [|right]|].
  destruct (completion_of (saveToGoogleSheets _ _ _ _ _)) as [e|[]].
  - eexists [_; _; _], _; by split; [|right].
  - eexists [_; _; _], _; by split; [|left].
Qed.

Section Updates.
Variable i : nat.

Lemma merge_at_ids (u : PartialReceipt) (rs : list ProcessedReceipt) :
  upd_id u = None -> id <$> merge_at i u rs = id <$> rs.
Proof. intros Hu. apply fmap_id_alter. intros r. by apply spread_id_keep. Qed.

Lemma merge_at_settled (u : PartialReceipt) (rs : list ProcessedReceipt)
    (j : nat) (r : ProcessedReceipt) :
  upd_saveStatus u <> Some pending ->
  rs !! j = Some r -> saveStatus r <> pending ->
  exists r', merge_at i u rs !! j = Some r' /\ saveStatus r' <> pending.
Proof.
  intros Hu Hr Hs. unfold merge_at. destruct (decide (i = j)) as [->|Hne].
  - rewrite list_lookup_alter_eq, Hr. eexists. split; [reflexivity|].
    simpl. destruct (upd_saveStatus u) as [ss|]; simpl; congruence.
  - rewrite list_lookup_alter_ne by done. eauto.
Qed.

Lemma foldl_merge_ids (us : list PartialReceipt) (rs : list ProcessedReceipt) :
  Forall keeps_identity us ->
  id <$> foldl (fun s u => merge_at i u s) rs us = id <$> rs.
Proof.
  intros Hus. revert rs. induction Hus as [|u us [Hu _] _ IH]; intros rs; simpl; [done|].
  by rewrite IH, merge_at_ids.
Qed.

Lemma foldl_merge_settled (us : list PartialReceipt) (rs : list ProcessedReceipt)
    (j : nat) (r : ProcessedReceipt) :
  Forall keeps_identity us ->
  rs !! j = Some r -> saveStatus r <> pending ->
  exists r', foldl (fun s u => merge_at i u s) rs us !! j = Some r' /\
             saveStatus r' <> pending.
Proof.
  intros Hus. revert rs r.
  induction Hus as [|u us [_ Hu] _ IH]; intros rs r Hr Hs; simpl; [eauto|].
  destruct (merge_at_settled u rs j r Hu Hr Hs) as (r' & Hr' & Hs'). eauto.
Qed.

(** Every published state is the array after a prefix of the updates. *)
Lemma elem_of_states_after (us : list PartialReceipt) (rs s : list ProcessedReceipt) :
  s ∈ states_after i rs us ->
  exists n, s = foldl (fun s u => merge_at i u s) rs (take n us).
Proof.
  revert rs. induction us as [|u us IH]; intros rs Hs; simpl in Hs.
  - inversion Hs.
  - apply elem_of_cons in Hs as [->|Hs].
    + by exists 1.
    + destruct (IH _ Hs) as [n ->]. by exists (S n).
Qed.

Lemma foldl_merge_last (us : list PartialReceipt) (u : PartialReceipt)
    (rs : list ProcessedReceipt) (r : ProcessedReceipt) :
  Forall keeps_identity us ->
  rs !! i = Some r ->
  upd_saveStatus u = Some success \/ upd_saveStatus u = Some failed ->
  exists r', foldl (fun s u => merge_at i u s) rs (us ++ [u]) !! i = Some r' /\
             saveStatus r' <> pending.
Proof.
  intros Hus Hr Hu. rewrite foldl_app. simpl.
  assert (Hl : is_Some (foldl (fun s u => merge_at i u s) rs us !! i)).
  { apply lookup_lt_is_Some.
    assert (Hlen : length (id <$> foldl (fun s u => merge_at i u s) rs us)
                   = length (id <$> rs)) by (by rewrite foldl_merge_ids).
    rewrite !length_fmap in Hlen. rewrite Hlen. by eapply lookup_lt_Some. }
  destruct Hl as [x Hx]. unfold merge_at at 1.
  rewrite list_lookup_alter_eq, Hx. eexists. split; [reflexivity|].
  simpl. destruct Hu as [-> | ->]; simpl; congruence.
Qed.

End Updates.

(** ** The loop *)

Lemma for_of_cons {A} (x : A) (xs : list A) (body : A -> M unit)
    (rs : list ProcessedReceipt) :
  for_of (x :: xs) body rs =
  match body x rs with
  | (rs', evs, inl e) => (rs', evs, inl e)
  | (rs', evs, inr _) =>
      let '(rs'', evs', r) := for_of xs body rs' in (rs'', evs ++ evs', r)
  end.
Proof. reflexivity. Qed.

Lemma findIndex_same_ids (x : string) (s s' : list ProcessedReceipt) :
  id <$> s = id <$> s' -> findIndex (has_id x) s = findIndex (has_id x) s'.
Proof. intros H. by rewrite !findIndex_has_id, H. Qed.

Section OneJob.
Variables (tok sheet : string) (env : JobEnv) (rs : list ProcessedReceipt).
Hypothesis Hsettled : settled rs.

Let rs0 := rs ++ [initialResult env].
Let i := target rs env.
Let us := job_updates tok sheet env.

(** A state reached by a prefix of the job's updates keeps the ids and
    keeps every earlier job settled. *)
Lemma prefix_state_ok (n : nat) :
  let s := foldl (fun s u => merge_at i u s) rs0 (take n us) in
  id <$> s = (id <$> rs) ++ [job_id env] /\
  (forall r, r ∈ rs ->
     exists r', find_by_id (id r) s = Some r' /\ saveStatus r' <> pending).
Proof.
  cbv zeta.
  assert (Hk : Forall keeps_identity (take n us)).
  { apply Forall_take, job_updates_keep. }
  assert (Hids : id <$> foldl (fun s u => merge_at i u s) rs0 (take n us)
                 = (id <$> rs) ++ [job_id env]).
  { rewrite foldl_merge_ids by done. unfold rs0. by rewrite fmap_app. }
  split; [done|].
  intros r Hr. destruct (Hsettled r Hr) as (r' & Hfind & Hs).
  unfold find_by_id in Hfind |- *.
  destruct (findIndex (has_id (id r)) rs) as [j|] eqn:Hj; [|done].
  assert (Hj0 : findIndex (has_id (id r)) rs0 = Some j).
  { unfold rs0. by rewrite findIndex_app, Hj. }
  rewrite (findIndex_same_ids _ _ rs0), Hj0.
  2:{ rewrite Hids. unfold rs0. by rewrite fmap_app. }
  apply (foldl_merge_settled i (take n us) rs0 j r'); [done| |done].
  unfold rs0. rewrite lookup_app_l; [done|]. by eapply lookup_lt_Some.
Qed.

Lemma loop_body_settles :
  let run := loop_body tok sheet env rs in
  completion_of run = inr tt /\
  id <$> results_of run = (id <$> rs) ++ [job_id env] /\
  settled (results_of run) /\
  (forall s, s ∈ snapshots (events_of run) ->
     id <$> s = (id <$> rs) ++ [job_id env] /\
     forall r, r ∈ rs ->
       exists r', find_by_id (id r) s = Some r' /\ saveStatus r' <> pending).
Proof.
  cbv zeta.
  destruct (loop_body_updates tok sheet env rs) as (Hc & Hres & Hsnap).
  fold rs0 i us in Hres, Hsnap.
  assert (Hfull : foldl (fun s u => merge_at i u s) rs0 us
                  = foldl (fun s u => merge_at i u s) rs0 (take (length us) us)).
  { by rewrite firstn_all. }
  split; [done|]. rewrite Hres, Hsnap.
  split; [rewrite Hfull; apply prefix_state_ok|].
  split.
  - intros r Hr.
    assert (Hid : id r ∈ (id <$> rs) ++ [job_id env]).
    { rewrite <- (proj1 (prefix_state_ok (length us))), <- Hfull.
      apply list_elem_of_fmap. by exists r. }
    apply elem_of_app in Hid as [Hold|Hnew].
    + apply list_elem_of_fmap in Hold as (r0 & Hid0 & Hr0).
      rewrite Hid0, Hfull. by apply prefix_state_ok.
    + apply list_elem_of_singleton in Hnew. rewrite Hnew.
      destruct (job_updates_end tok sheet env) as (us' & u & Hus & Hu).
      fold us in Hus.
      assert (Hi : findIndex (has_id (job_id env)) (foldl (fun s u => merge_at i u s) rs0 us)
                   = Some i).
      { rewrite (findIndex_same_ids _ _ rs0); [apply target_found|].
        apply foldl_merge_ids, job_updates_keep. }
      unfold find_by_id. rewrite Hi, Hus.
      assert (H0 : is_Some (rs0 !! i)).
      { apply lookup_lt_is_Some. unfold rs0. rewrite length_app. simpl.
        pose proof (target_le rs env). unfold i. lia. }
      destruct H0 as [x Hx].
      apply (foldl_merge_last i us' u rs0 x); [|done|done].
      pose proof (job_updates_keep tok sheet env) as Hk. fold us in Hk.
      rewrite Hus in Hk. by apply Forall_app in Hk as [Hk _].
  - intros s Hs. apply elem_of_cons in Hs as [->|Hs].
    + apply (prefix_state_ok 0).
    + apply elem_of_states_after in Hs as [n ->]. apply prefix_state_ok.
Qed.

End OneJob.

(** The loop, started on an array that holds the finished jobs [done]. *)
Lemma for_of_sequential (tok sheet : string) (jobs : list JobEnv) :
  forall (done : list JobEnv) (rs : list ProcessedReceipt),
  id <$> rs = job_id <$> done -> settled rs ->
  let run := for_of jobs (loop_body tok sheet) rs in
  completion_of run = inr tt /\
  id <$> results_of run = job_id <$> (done ++ jobs) /\
  settled (results_of run) /\
  (forall s, s ∈ snapshots (events_of run) ->
     exists m, m < length jobs /\
       id <$> s = job_id <$> (done ++ take (S m) jobs) /\
       forall x, x ∈ job_id <$> (done ++ take m jobs) ->
         exists r', find_by_id x s = Some r' /\ saveStatus r' <> pending).
Proof.
  induction jobs as [|env jobs IH]; intros done rs Hids Hset; cbv zeta.
  - cbn. rewrite app_nil_r. repeat split; try done. intros s Hs. inversion Hs.
  - rewrite for_of_cons.
    destruct (loop_body_settles tok sheet env rs Hset) as (Hc & Hids1 & Hset1 & Hsnap1).
    destruct (loop_body tok sheet env rs) as [[rs1 evs1] c1].
    cbn [completion_of results_of events_of fst snd] in Hc, Hids1, Hset1, Hsnap1.
    subst c1.
    assert (Hids1' : id <$> rs1 = job_id <$> (done ++ [env])).
    { by rewrite Hids1, Hids, fmap_app. }
    destruct (IH (done ++ [env]) rs1 Hids1' Hset1) as (Hc2 & Hids2 & Hset2 & Hsnap2).
    destruct (for_of jobs (loop_body tok sheet) rs1) as [[rs2 evs2] c2].
    cbn [completion_of results_of events_of fst snd] in *.
    split; [done|]. split; [by rewrite Hids2, <- app_assoc|]. split; [done|].
    intros s Hs. rewrite snapshots_app in Hs. apply elem_of_app in Hs as [Hs|Hs].
    + destruct (Hsnap1 s Hs) as (Hs1 & Hs2). exists 0. split; [simpl; lia|].
      split; [by rewrite Hs1, Hids, fmap_app|].
      intros x Hx. rewrite take_0, app_nil_r, <- Hids in Hx.
      apply list_elem_of_fmap in Hx as (r & -> & Hr). by apply Hs2.
    + destruct (Hsnap2 s Hs) as (m & Hm & Hs1 & Hs2). exists (S m).
      split; [simpl; lia|].
      split; [by rewrite Hs1, <- app_assoc|].
      intros x Hx. apply Hs2. by rewrite <- app_assoc.
Qed.

Lemma run_batch_valid (jobs : list JobEnv) (tok sheet : string) :
  jobs <> [] -> tok <> "" -> sheet <> "" ->
  completion_of (run_batch jobs tok sheet) = inr tt /\
  results_of (run_batch jobs tok sheet)
    = results_of (for_of jobs (loop_body tok sheet) []) /\
  events_of (run_batch jobs tok sheet)
    = SetIsProcessing true :: SetProcessedReceipts []
      :: events_of (for_of jobs (loop_body tok sheet) []) ++ [SetIsProcessing false].
Proof.
  intros Hj Ht Hs. unfold run_batch.
  rewrite (handleProcessReceipts_valid jobs tok sheet [] Hj Ht Hs).
  assert (Hnil : settled []) by (intros r Hr; inversion Hr).
  destruct (for_of_sequential tok sheet jobs [] [] eq_refl Hnil) as (Hc & _).
  destruct (for_of jobs (loop_body tok sheet) []) as [[rs evs] c].
  cbn [completion_of results_of events_of fst snd] in *. by subst c.
Qed.


(** ** The pieces of a batch *)


(** What observers see is the last snapshot published, if any. *)
Lemma observed_last (before : list ProcessedReceipt) (tr : list event) :
  observed before tr = default before (last (snapshots tr)).
Proof.
  revert before. induction tr as [|ev tr IH]; intros before; [done|].
  change (observed before (ev :: tr))
    with (observed (match ev with SetProcessedReceipts s => s | _ => before end) tr).
  rewrite IH, snapshots_cons. destruct ev; try done.
  rewrite last_cons. by destruct (last (snapshots tr)).
Qed.

Lemma observed_published (before : list ProcessedReceipt) (tr : list event) :
  snapshots tr <> [] -> observed before tr ∈ snapshots tr.
Proof.
  intros Hne. rewrite observed_last.
  destruct (last (snapshots tr)) as [s|] eqn:Hl.
  - simpl. apply last_Some in Hl as [l' ->]. apply elem_of_app. right. by left.
  - apply last_None in Hl. contradiction.
Qed.

Lemma concat_segments (tr : list event) : concat (segments tr) = tr.
Proof.
  induction tr as [|ev tr IH]; [done|]. simpl.
  destruct (is_await ev); simpl; [by rewrite IH|].
  destruct (segments tr) as [|seg segs]; simpl in *; by rewrite <- IH.
Qed.

Lemma elem_of_concat_intro {A} (x : A) (l : list A) (ls : list (list A)) :
  x ∈ l -> l ∈ ls -> x ∈ concat ls.
Proof.
  intros Hx Hl. induction ls as [|l' ls IH]; [inversion Hl|].
  simpl. apply elem_of_app. apply elem_of_cons in Hl as [<-|Hl]; [by left|right; auto].
Qed.

Lemma segment_snapshots (tr seg : list event) (s : list ProcessedReceipt) :
  seg ∈ segments tr -> s ∈ snapshots seg -> s ∈ snapshots tr.
Proof.
  intros Hseg Hs. apply elem_of_snapshots. apply elem_of_snapshots in Hs.
  rewrite <- (concat_segments tr). by apply elem_of_concat_intro with seg.
Qed.

Lemma publishing_app (seen : bool) (t1 t2 : list event) :
  publishing seen (t1 ++ t2)
  = match publishing seen t1 with
    | Some b => publishing b t2
    | None => None
    end.
Proof.
  revert seen. induction t1 as [|ev t1 IH]; intros seen; simpl; [done|].
  destruct (is_await ev); [destruct seen; [apply IH|done]|apply IH].
Qed.

Lemma publishing_segments (tr : list event) (seen : bool) :
  publishing seen tr = Some true ->
  match segments tr with
  | [] => True
  | seg :: segs =>
      (seen = true \/ snapshots seg <> []) /\ Forall (fun s => snapshots s <> []) segs
  end.
Proof.
  revert seen. induction tr as [|ev tr IH]; intros seen Hp; simpl in *; [done|].
  destruct (is_await ev) eqn:Ha.
  - destruct seen; [|done]. split; [by left|].
    specialize (IH false Hp). destruct (segments tr) as [|seg segs]; [done|].
    destruct IH as [[?|?] ?]; [done|]. by constructor.
  - specialize (IH _ Hp).
    assert (Hev : is_publish ev = true -> forall l, snapshots (ev :: l) <> []).
    { intros He l. destruct ev; try done. }
    destruct (segments tr) as [|seg segs] eqn:Hsegs.
    + split; [|done]. assert (tr = []) as ->.
      { rewrite <- (concat_segments tr), Hsegs. done. }
      simpl in Hp. injection Hp as Hp. apply orb_true_iff in Hp as [?|He]; [by left|].
      right. by apply Hev.
    + destruct IH as [Hfirst Hrest]. split; [|done].
      destruct Hfirst as [Hseen|Hsnap].
      * apply orb_true_iff in Hseen as [?|He]; [by left|]. right. by apply Hev.
      * right. rewrite snapshots_cons. destruct ev; try done.
Qed.

(** One job publishes in each of its pieces, whatever preceded it. *)
Lemma loop_body_publishing (tok sheet : string) (env : JobEnv)
    (rs : list ProcessedReceipt) (seen : bool) :
  publishing seen (events_of (loop_body tok sheet env rs)) = Some true.
Proof.
  rewrite loop_body_exec. cbv zeta.
  rewrite (try_catch_exec tok sheet env _ _ (target_found rs env)). cbv zeta.
  destruct (ocrResponse env) as [e|o]; [by destruct seen|].
  destruct (falsy o); [by destruct seen|].
  destruct (completion_of (generateExpenseJson env (default "" o) [])) as [e|v].
  { cbn [events_of fst snd app].
    by destruct (generateExpenseJson_events env (default "" o)) as [-> | ->], seen. }
  destruct (completion_of (saveToGoogleSheets env v tok sheet [])) as [e|[]];
    cbn [events_of fst snd app];
    by destruct (generateExpenseJson_events env (default "" o)) as [-> | ->], seen.
Qed.

Lemma for_of_publishing (tok sheet : string) (jobs : list JobEnv) :
  forall (rs : list ProcessedReceipt) (seen : bool),
  publishing seen (events_of (for_of jobs (loop_body tok sheet) rs))
  = Some (if jobs is [] then seen else true).
Proof.
  induction jobs as [|env jobs IH]; intros rs seen; [done|].
  rewrite for_of_cons.
  pose proof (loop_body_publishing tok sheet env rs seen) as H1.
  destruct (loop_body_updates tok sheet env rs) as (Hc & _).
  destruct (loop_body tok sheet env rs) as [[rs1 evs1] c1].
  cbn [completion_of events_of fst snd] in *. subst c1.
  specialize (IH rs1 true).
  destruct (for_of jobs (loop_body tok sheet) rs1) as [[rs2 evs2] c2].
  cbn [events_of fst snd] in *. rewrite publishing_app, H1, IH. by destruct jobs.
Qed.

(** A batch clears the collection first, and each of its pieces publishes
    the batch's own array. *)
Lemma batch_pieces_publish (jobs : list JobEnv) (tok sheet : string) :
  jobs <> [] -> tok <> "" -> sheet <> "" ->
  let trace := events_of (run_batch jobs tok sheet) in
  (exists rest, trace = SetIsProcessing true :: SetProcessedReceipts [] :: rest) /\
  (forall seg before, seg ∈ segments trace ->
     observed before seg ∈ snapshots trace /\
     exists n, 0 < n <= length jobs /\
       id <$> observed before seg = job_id <$> take n jobs).
Proof.
  intros Hj Ht Hs. cbv zeta.
  destruct (run_batch_valid jobs tok sheet Hj Ht Hs) as (_ & _ & Hev).
  rewrite Hev. clear Hev. split; [eauto|].
  set (T := events_of (for_of jobs (loop_body tok sheet) []) ++ [SetIsProcessing false]).
  assert (Hpub : publishing false T = Some true).
  { unfold T. rewrite publishing_app, for_of_publishing. by destruct jobs. }
  assert (Hown : forall s, s ∈ snapshots T ->
            exists n, 0 < n <= length jobs /\ id <$> s = job_id <$> take n jobs).
  { intros s Hin. unfold T in Hin. rewrite snapshots_app in Hin. cbn in Hin.
    rewrite app_nil_r in Hin.
    assert (Hnil : settled []) by (intros r Hr; inversion Hr).
    destruct (for_of_sequential tok sheet jobs [] [] eq_refl Hnil) as (_ & _ & _ & Hsnap).
    destruct (Hsnap s Hin) as (m & Hm & Hids & _). exists (S m). split; [lia|done]. }
  assert (Hsub : forall s, s ∈ snapshots T ->
            s ∈ snapshots (SetIsProcessing true :: SetProcessedReceipts [] :: T)).
  { intros s Hin. rewrite !snapshots_cons. by right. }
  pose proof (publishing_segments T false Hpub) as Hsegs.
  intros seg before Hseg. cbn [segments is_await] in Hseg.
  destruct (segments T) as [|seg1 segs] eqn:HT.
  { exfalso. assert (T = []) as HT' by (by rewrite <- (concat_segments T), HT).
    unfold T in HT'. by destruct (events_of _). }
  destruct Hsegs as [[?|Hfirst] Hrest]; [done|].
  assert (Hin1 : seg1 ∈ segments T) by (rewrite HT; by left).
  apply elem_of_cons in Hseg as [->|Hseg].
  - change (observed before (SetIsProcessing true :: SetProcessedReceipts [] :: seg1))
      with (observed [] seg1).
    pose proof (observed_published [] seg1 Hfirst) as Hobs.
    pose proof (segment_snapshots T seg1 _ Hin1 Hobs) as HobsT. auto.
  - assert (Hne : snapshots seg <> []).
    { rewrite Forall_forall in Hrest. by apply Hrest. }
    pose proof (observed_published before seg Hne) as Hobs.
    assert (HinT : seg ∈ segments T) by (rewrite HT; by right).
    pose proof (segment_snapshots T seg _ HinT Hobs) as HobsT. auto.
Qed.

(** ** Batches whose ids are pairwise distinct *)

Lemma path_app (a b c : list ProcessedReceipt) (l1 l2 : list (list ProcessedReceipt)) :
  path a l1 b -> path b l2 c -> path a (l1 ++ l2) c.
Proof.
  revert a. induction l1 as [|s l1 IH]; intros a H1 H2; simpl in *.
  - by subst.
  - destruct H1 as [Ha H1]. split; [done|]. by apply IH.
Qed.

Lemma path_lookup (a c : list ProcessedReceipt) (l : list (list ProcessedReceipt))
    (j : nat) (s s' : list ProcessedReceipt) :
  path a l c -> l !! j = Some s -> l !! S j = Some s' -> advances s s'.
Proof.
  revert a j. induction l as [|x l IH]; intros a j Hp Hs Hs'; [done|].
  destruct Hp as [_ Hp]. destruct j as [|j]; simpl in *.
  - injection Hs as ->. destruct l as [|y l]; [done|]. simpl in Hs'. injection Hs' as ->.
    by destruct Hp.
  - by apply (IH x j).
Qed.

Lemma advances_push (rs : list ProcessedReceipt) (r : ProcessedReceipt) :
  advances rs (rs ++ [r]).
Proof.
  intros k x x' Hx Hx'. rewrite lookup_app_l in Hx' by (by eapply lookup_lt_Some).
  rewrite Hx in Hx'. by injection Hx' as ->.
Qed.

Lemma advances_own (rs : list ProcessedReceipt) (r r' : ProcessedReceipt) :
  phase (status r) <= phase (status r') -> advances (rs ++ [r]) (rs ++ [r']).
Proof.
  intros Hle k x x' Hx Hx'. destruct (decide (k < length rs)) as [Hk|Hk].
  - rewrite lookup_app_l in Hx, Hx' by done. rewrite Hx in Hx'. by injection Hx' as ->.
  - rewrite lookup_app_r in Hx, Hx' by lia.
    destruct (k - length rs) as [|n]; simpl in *; [|done].
    injection Hx as <-. by injection Hx' as <-.
Qed.

Lemma saved_data_not_null (env : JobEnv) (v : json) (tok sheet : string) (u : unit) :
  completion_of (saveToGoogleSheets env v tok sheet []) = inr u -> v <> JNull.
Proof.
  unfold saveToGoogleSheets, await, completion_of; simpl. intros H ->. simpl in H.
  discriminate.
Qed.

Lemma Forall_record_ok_snoc (rs : list ProcessedReceipt) (r : ProcessedReceipt) :
  Forall record_ok rs -> record_ok r -> Forall record_ok (rs ++ [r]).
Proof. intros. apply Forall_app. split; [done|]. by constructor. Qed.

Ltac solve_record_ok :=
  unfold record_ok; cbn; split; intro; first [discriminate | done | by split].

Ltac solve_job_path Hok :=
  simpl; rewrite !merge_at_last;
  split; [|split];
  [ repeat split; first [apply advances_push | apply advances_own; vm_compute; lia]
  | repeat first [apply List.Forall_nil | apply List.Forall_cons];
    (apply Forall_record_ok_snoc; [exact Hok|solve_record_ok])
  | apply Forall_record_ok_snoc; [exact Hok|solve_record_ok] ].

(** One job whose id is new to the array. *)
Lemma loop_body_well_formed (tok sheet : string) (env : JobEnv)
    (rs : list ProcessedReceipt) :
  job_id env ∉ (id <$> rs) -> Forall record_ok rs ->
  let run := loop_body tok sheet env rs in
  path rs (snapshots (events_of run)) (results_of run) /\
  Forall (Forall record_ok) (snapshots (events_of run)) /\
  Forall record_ok (results_of run).
Proof.
  intros Hfresh Hok. cbv zeta.
  destruct (loop_body_updates tok sheet env rs) as (_ & -> & ->).
  rewrite (target_fresh _ _ Hfresh).
  unfold job_updates.
  destruct (ocrResponse env) as [e|o]; [solve_job_path Hok|].
  destruct (falsy o); [solve_job_path Hok|].
  destruct (completion_of (generateExpenseJson env (default "" o) [])) as [e|v];
    [solve_job_path Hok|].
  destruct (completion_of (saveToGoogleSheets env v tok sheet [])) as [e|u] eqn:Hsave;
    [solve_job_path Hok|].
  pose proof (saved_data_not_null _ _ _ _ _ Hsave) as Hv.
  solve_job_path Hok.
Qed.

Lemma loop_body_ids (tok sheet : string) (env : JobEnv) (rs : list ProcessedReceipt) :
  completion_of (loop_body tok sheet env rs) = inr tt /\
  id <$> results_of (loop_body tok sheet env rs) = (id <$> rs) ++ [job_id env].
Proof.
  destruct (loop_body_updates tok sheet env rs) as (Hc & -> & _). split; [done|].
  rewrite foldl_merge_ids by apply job_updates_keep. by rewrite fmap_app.
Qed.

Lemma for_of_well_formed (tok sheet : string) (jobs : list JobEnv) :
  forall (done : list JobEnv) (rs : list ProcessedReceipt),
  id <$> rs = job_id <$> done -> NoDup (job_id <$> (done ++ jobs)) ->
  Forall record_ok rs ->
  let run := for_of jobs (loop_body tok sheet) rs in
  path rs (snapshots (events_of run)) (results_of run) /\
  Forall (Forall record_ok) (snapshots (events_of run)) /\
  Forall record_ok (results_of run).
Proof.
  induction jobs as [|env jobs IH]; intros done rs Hids Hnd Hok; cbv zeta.
  - by cbn.
  - rewrite for_of_cons.
    assert (Hfresh : job_id env ∉ (id <$> rs)).
    { rewrite Hids. rewrite fmap_app in Hnd. apply NoDup_app in Hnd as (_ & Hdis & _).
      intros Hin. apply (Hdis _ Hin). rewrite fmap_cons. by left. }
    destruct (loop_body_well_formed tok sheet env rs Hfresh Hok) as (Hp1 & Hs1 & Hr1).
    destruct (loop_body_ids tok sheet env rs) as (Hc1 & Hids1).
    destruct (loop_body tok sheet env rs) as [[rs1 evs1] c1].
    cbn [completion_of results_of events_of fst snd] in *. subst c1.
    assert (Hids1' : id <$> rs1 = job_id <$> (done ++ [env])).
    { by rewrite Hids1, Hids, fmap_app. }
    assert (Hnd' : NoDup (job_id <$> ((done ++ [env]) ++ jobs))) by (by rewrite <- app_assoc).
    destruct (IH (done ++ [env]) rs1 Hids1' Hnd' Hr1) as (Hp2 & Hs2 & Hr2).
    destruct (for_of jobs (loop_body tok sheet) rs1) as [[rs2 evs2] c2].
    cbn [completion_of results_of events_of fst snd] in *.
    rewrite snapshots_app. split; [by eapply path_app|]. split; [|done].
    apply Forall_app. by split.
Qed.

(** X8. With pairwise distinct ids the record invariants of the data model hold
    in every snapshot of a batch, and from each snapshot to the next no
    record moves to an earlier phase. *)
Lemma distinct_ids_keep_records_well_formed (jobs : list JobEnv) (tok sheet : string) :
  jobs <> [] -> tok <> "" -> sheet <> "" -> NoDup (job_id <$> jobs) ->
  let snaps := snapshots (events_of (run_batch jobs tok sheet)) in
  (forall s r, s ∈ snaps -> r ∈ s -> record_ok r) /\
  (forall j s s', snaps !! j = Some s -> snaps !! S j = Some s' -> advances s s').
Proof.
  intros Hj Ht Hs Hnd. cbv zeta.
  destruct (run_batch_valid jobs tok sheet Hj Ht Hs) as (_ & _ & ->).
  destruct (for_of_well_formed tok sheet jobs [] [] eq_refl Hnd (List.Forall_nil _))
    as (Hpath & Hall & _).
  rewrite !snapshots_cons, snapshots_app. cbn [snapshots omap]. rewrite app_nil_r.
  split.
  - intros s r Hin Hr. apply elem_of_cons in Hin as [->|Hin]; [inversion Hr|].
    rewrite Forall_forall in Hall. specialize (Hall s Hin).
    rewrite Forall_forall in Hall. by apply Hall.
  - intros j s s' Hs1 Hs2.
    apply (path_lookup [] (results_of (for_of jobs (loop_body tok sheet) []))
             ([] :: snapshots (events_of (for_of jobs (loop_body tok sheet) [])))
             j s s'); [|done|done].
    split; [|exact Hpath]. intros k r r' Hr. done.
Qed.

Lemma job_updates_keep_preview (tok sheet : string) (env : JobEnv) :
  Forall (fun u => upd_id u = None /\ upd_imagePreview u = None) (job_updates tok sheet env).
Proof.
  unfold job_updates.
  destruct (ocrResponse env) as [e|o]; [by repeat constructor|].
  destruct (falsy o); [by repeat constructor|].
  destruct (completion_of (generateExpenseJson _ _ _)) as [e|v]; [by repeat constructor|].
  destruct (completion_of (saveToGoogleSheets _ _ _ _ _)) as [e|[]]; by repeat constructor.
Qed.

Lemma foldl_merge_previews (i : nat) (us : list PartialReceipt) (rs : list ProcessedReceipt) :
  Forall (fun u => upd_id u = None /\ upd_imagePreview u = None) us ->
  imagePreview <$> foldl (fun s u => merge_at i u s) rs us = imagePreview <$> rs.
Proof.
  intros Hus. revert rs. induction Hus as [|u us [_ Hu] _ IH]; intros rs; simpl; [done|].
  rewrite IH. unfold merge_at.
  rewrite (list_fmap_alter imagePreview (fun r => spread r u) (fun x => x) rs i).
  - by apply list_alter_id.
  - apply Forall_forall. intros r _. unfold spread; simpl. by rewrite Hu.
Qed.

Lemma for_of_records (tok sheet : string) (jobs : list JobEnv) :
  forall (done : list JobEnv) (rs : list ProcessedReceipt),
  id <$> rs = job_id <$> done -> imagePreview <$> rs = objectURL <$> done ->
  id <$> results_of (for_of jobs (loop_body tok sheet) rs) = job_id <$> (done ++ jobs) /\
  imagePreview <$> results_of (for_of jobs (loop_body tok sheet) rs)
    = objectURL <$> (done ++ jobs).
Proof.
  induction jobs as [|env jobs IH]; intros done rs Hids Hurl.
  - cbn. by rewrite app_nil_r.
  - rewrite for_of_cons.
    destruct (loop_body_ids tok sheet env rs) as (Hc1 & Hids1).
    assert (Hurl1 : imagePreview <$> results_of (loop_body tok sheet env rs)
                    = (imagePreview <$> rs) ++ [objectURL env]).
    { destruct (loop_body_updates tok sheet env rs) as (_ & -> & _).
      rewrite foldl_merge_previews by apply job_updates_keep_preview.
      by rewrite fmap_app. }
    destruct (loop_body tok sheet env rs) as [[rs1 evs1] c1].
    cbn [completion_of results_of events_of fst snd] in *. subst c1.
    assert (H1 : id <$> rs1 = job_id <$> (done ++ [env])) by (by rewrite Hids1, Hids, fmap_app).
    assert (H2 : imagePreview <$> rs1 = objectURL <$> (done ++ [env]))
      by (by rewrite Hurl1, Hurl, fmap_app).
    destruct (IH (done ++ [env]) rs1 H1 H2) as (Hi & Hu).
    destruct (for_of jobs (loop_body tok sheet) rs1) as [[rs2 evs2] c2].
    cbn [results_of fst snd] in *. by rewrite Hi, Hu, <- !app_assoc.
Qed.

(** X9. A batch ends with one record per image, in input order, each carrying
    the id made for its job and the preview of its image; the ids of the
    records are pairwise distinct exactly when those of the jobs are. *)
Lemma one_record_per_image (jobs : list JobEnv) (tok sheet : string) :
  jobs <> [] -> tok <> "" -> sheet <> "" ->
  let final := results_of (run_batch jobs tok sheet) in
  length final = length jobs /\
  id <$> final = job_id <$> jobs /\
  imagePreview <$> final = objectURL <$> jobs /\
  (NoDup (id <$> final) <-> NoDup (job_id <$> jobs)).
Proof.
  intros Hj Ht Hs. cbv zeta.
  destruct (run_batch_valid jobs tok sheet Hj Ht Hs) as (_ & -> & _).
  destruct (for_of_records tok sheet jobs [] [] eq_refl eq_refl) as (Hids & Hurl).
  cbn [app] in Hids, Hurl. split; [|split; [done|split; [done|by rewrite Hids]]].
  apply (f_equal length) in Hids. by rewrite !length_fmap in Hids.
Qed.

(** X10. For files of one name the ids differ as soon as the clock readings do. *)
Lemma job_id_same_name (e1 e2 : JobEnv) :
  name (file e1) = name (file e2) -> job_id e1 = job_id e2 -> now e1 = now e2.
Proof.
  unfold job_id. intros -> H. apply (inj (String.app _)) in H. by apply (inj pretty) in H.
Qed.

(** ** The properties on concrete batches *)

Example receipt_json_parses : JSON_parse receipt_json = Some receipt_value.
Proof. vm_compute. reflexivity. Qed.

Example receipt_value_conforms : conforms receipt_value = true.
Proof. reflexivity. Qed.

(** The scenario of the specification: A succeeds through all stages, B's
    extraction yields no text. *)
Example two_receipts_one_unreadable :
  results_of (run_batch [job_ok "A.jpg" 1700000000000;
                         job_with_text "B.jpg" 1700000002000 ""] "token" "sheet")
  = [ {| id := "A.jpg1700000000000"; imagePreview := "blob:A.jpg";
         status := "Saved successfully!"; data := receipt_value;
         saveStatus := success; error := None |};
      {| id := "B.jpg1700000002000"; imagePreview := "blob:B.jpg";
         status := "Failed"; data := JNull; saveStatus := failed;
         error := Some "Could not extract any text. The image might be unclear." |} ].
Proof. vm_compute. reflexivity. Qed.

Lemma structured_data_survives_persistence_failure_witness :
  ocrResponse (job_sheets_refused "A.jpg" 1700000000000) = Resolves (Some "CAFE TEA 12.50") /\
  "CAFE TEA 12.50" <> "" /\
  completion_of (generateExpenseJson (job_sheets_refused "A.jpg" 1700000000000)
                   "CAFE TEA 12.50" []) = inr receipt_value /\
  exists r,
    find_by_id "A.jpg1700000000000"
      (results_of (loop_body "token" "sheet" (job_sheets_refused "A.jpg" 1700000000000) []))
    = Some r /\
    data r = receipt_value /\ saveStatus r = failed /\ status r = "Failed" /\
    error r = Some "The caller does not have permission".
Proof.
  assert (H1 : ocrResponse (job_sheets_refused "A.jpg" 1700000000000)
               = Resolves (Some "CAFE TEA 12.50")) by reflexivity.
  assert (H2 : "CAFE TEA 12.50" <> "") by discriminate.
  assert (H3 : completion_of (generateExpenseJson (job_sheets_refused "A.jpg" 1700000000000)
                                "CAFE TEA 12.50" []) = inr receipt_value)
    by (vm_compute; reflexivity).
  split; [exact H1|]. split; [exact H2|]. split; [exact H3|].
  destruct (structured_data_survives_persistence_failure "token" "sheet"
              (job_sheets_refused "A.jpg" 1700000000000) [] "CAFE TEA 12.50"
              receipt_value H1 H2 H3) as (pre & post & _ & _ & _ & _ & Hfail & _).
  apply (Hfail (Error "The caller does not have permission")).
  vm_compute. reflexivity.
Defined.

Lemma empty_extraction_fails_without_structuring_witness :
  ocrResponse (job_with_text "B.jpg" 1700000002000 "") = Resolves (Some "") /\
  (Some "" = None \/ Some "" = Some "") /\
  forall t, Await_generateExpenseJson t
            ∉ events_of (loop_body "token" "sheet" (job_with_text "B.jpg" 1700000002000 "") []).
Proof.
  split; [reflexivity|]. split; [by right|].
  apply (empty_extraction_fails_without_structuring "token" "sheet"
           (job_with_text "B.jpg" 1700000002000 "") [] (Some "") eq_refl).
  by right.
Defined.

(** C2, counterexample. A text of one space is blank, yet the job is not
    failed: the record moves on to "Structuring data..." and the structuring
    service is called with that text. *)
Lemma blank_text_is_sent_to_structuring :
  ocrResponse (job_with_text "B.jpg" 1700000002000 " ") = Resolves (Some " ") /\
  is_blank " " = true /\
  Await_generateExpenseJson " "
    ∈ events_of (loop_body "token" "sheet" (job_with_text "B.jpg" 1700000002000 " ") []) /\
  snapshots (events_of (loop_body "token" "sheet"
                          (job_with_text "B.jpg" 1700000002000 " ") [])) !! 1
  = Some [ {| id := "B.jpg1700000002000"; imagePreview := "blob:B.jpg";
              status := "Structuring data..."; data := JNull;
              saveStatus := pending; error := None |} ].
Proof.
  split; [reflexivity|]. split; [reflexivity|]. split.
  - vm_compute. do 3 right. left.
  - vm_compute. reflexivity.
Qed.


Lemma updateResult_noop_or_merge_witness :
  (forall r, r ∈ [initialResult (job_ok "A.jpg" 1)] -> id r <> "B.jpg2") /\
  updateResult "B.jpg2" (with_status "Failed") [initialResult (job_ok "A.jpg" 1)]
    = ([initialResult (job_ok "A.jpg" 1)], [], inr tt) /\
  (exists r, r ∈ [initialResult (job_ok "A.jpg" 1)] /\ id r = "A.jpg1") /\
  exists i r r',
    [initialResult (job_ok "A.jpg" 1)] !! i = Some r /\
    results_of (updateResult "A.jpg1" (with_status "Failed")
                  [initialResult (job_ok "A.jpg" 1)]) !! i = Some r' /\
    status r' = "Failed" /\ data r' = data r.
Proof.
  assert (H1 : forall r, r ∈ [initialResult (job_ok "A.jpg" 1)] -> id r <> "B.jpg2").
  { intros r Hr. apply list_elem_of_singleton in Hr. subst r. vm_compute. discriminate. }
  assert (H2 : exists r, r ∈ [initialResult (job_ok "A.jpg" 1)] /\ id r = "A.jpg1").
  { exists (initialResult (job_ok "A.jpg" 1)). split; [by left|]. vm_compute. reflexivity. }
  split; [exact H1|]. split.
  - apply (updateResult_noop_or_merge "B.jpg2" (with_status "Failed") _), H1.
  - split; [exact H2|].
    destruct (proj2 (updateResult_noop_or_merge "A.jpg1" (with_status "Failed")
                       [initialResult (job_ok "A.jpg" 1)]) H2)
      as (i & r & r' & Hr & _ & _ & _ & _ & _ & Hr' & _ & _ & _ & Hst & Hd & _).
    exists i, r, r'. split; [exact Hr|]. split; [exact Hr'|]. split; [exact Hst|exact Hd].
Defined.

Lemma unmet_preconditions_leave_no_state_witness :
  ([job_ok "A.jpg" 1700000000000] = [] \/ "" = "" \/ "sheet" = "") /\
  observed [initialResult (job_ok "Z.jpg" 1600000000000)]
    (events_of (run_batch [job_ok "A.jpg" 1700000000000] "" "sheet"))
  = [initialResult (job_ok "Z.jpg" 1600000000000)].
Proof.
  assert (H : [job_ok "A.jpg" 1700000000000] = [] \/ "" = "" \/ "sheet" = "")
    by (right; left; reflexivity).
  split; [exact H|].
  apply (unmet_preconditions_leave_no_state [job_ok "A.jpg" 1700000000000] "" "sheet"
           [initialResult (job_ok "Z.jpg" 1600000000000)] H).
Defined.

Lemma structuring_fails_exactly_on_unparsable_text_witness :
  jsonResponse (job_with_json "A.jpg" 1700000000000 "{") = Resolves (Some "{") /\
  JSON_parse (trim "{") = None /\
  completion_of (generateExpenseJson (job_with_json "A.jpg" 1700000000000 "{")
                   "CAFE TEA 12.50" [])
  = inl (Error
      "AI failed to generate a valid data structure. The receipt might be ambiguous.").
Proof.
  split; [reflexivity|]. split; [vm_compute; reflexivity|].
  destruct (structuring_fails_exactly_on_unparsable_text "token" "sheet"
              (job_with_json "A.jpg" 1700000000000 "{") "CAFE TEA 12.50" [])
    as (_ & H & _).
  apply (H (Some "{") eq_refl). right. exists "{". split; [reflexivity|].
  vm_compute. reflexivity.
Defined.

(** C9, counterexample. The response text "{}" parses to the empty object,
    which lacks every field of the expected shape; the structuring service
    returns it all the same, and the job is taken to "Saving to Google
    Sheets..." with it as data and on to the persistence service. *)
Lemma nonconforming_value_passes_structuring :
  JSON_parse (trim "{}") = Some (JObject []) /\
  conforms (JObject []) = false /\
  completion_of (generateExpenseJson (job_with_json "A.jpg" 1700000000000 "{}")
                   "CAFE TEA 12.50" []) = inr (JObject []) /\
  snapshots (events_of (loop_body "token" "sheet"
                          (job_with_json "A.jpg" 1700000000000 "{}") [])) !! 3
  = Some [ {| id := "A.jpg1700000000000"; imagePreview := "blob:A.jpg";
              status := "Saving to Google Sheets..."; data := JObject [];
              saveStatus := pending; error := None |} ] /\
  Await_saveToGoogleSheets (JObject []) "token" "sheet"
    ∈ events_of (loop_body "token" "sheet" (job_with_json "A.jpg" 1700000000000 "{}") []).
Proof.
  split; [vm_compute; reflexivity|]. split; [reflexivity|].
  split; [vm_compute; reflexivity|]. split; [vm_compute; reflexivity|].
  vm_compute. do 6 right. left.
Qed.

Lemma updateResult_idempotent_witness :
  (upd_id (with_status "Failed") = None
   \/ NoDup (id <$> [initialResult (job_ok "A.jpg" 1); initialResult (job_ok "A.jpg" 1)])) /\
  results_of (updateResult "A.jpg1" (with_status "Failed")
                (results_of (updateResult "A.jpg1" (with_status "Failed")
                   [initialResult (job_ok "A.jpg" 1); initialResult (job_ok "A.jpg" 1)])))
  = results_of (updateResult "A.jpg1" (with_status "Failed")
                  [initialResult (job_ok "A.jpg" 1); initialResult (job_ok "A.jpg" 1)]).
Proof.
  assert (H : upd_id (with_status "Failed") = None
              \/ NoDup (id <$> [initialResult (job_ok "A.jpg" 1);
                                initialResult (job_ok "A.jpg" 1)]))
    by (left; reflexivity).
  split; [exact H|].
  apply (updateResult_idempotent "A.jpg1" (with_status "Failed")
           [initialResult (job_ok "A.jpg" 1); initialResult (job_ok "A.jpg" 1)] [] H).
Defined.

(** C5, at the failing input. Two photos named "image.jpg" are processed
    within one tick of the clock, so both jobs get the id
    "image.jpg1700000000000".  The first fails at extraction; the updates of
    the second, which succeeds, land on the first job's record: its status
    goes back from "Failed" to "Structuring data...", and it ends with
    saveStatus success while still carrying the first job's error. *)
Theorem colliding_ids_break_record_invariants :
  let run := run_batch [job_offline "image.jpg" 1700000000000;
                        job_ok "image.jpg" 1700000000000] "token" "sheet" in
  (exists s r, snapshots (events_of run) !! 7 = Some s /\ s = results_of run /\
               s !! 0 = Some r /\
               saveStatus r = success /\ error r = Some "Failed to fetch") /\
  (exists s s' r r',
     snapshots (events_of run) !! 3 = Some s /\ snapshots (events_of run) !! 4 = Some s' /\
     s !! 0 = Some r /\ s' !! 0 = Some r' /\
     status r = "Failed" /\ status r' = "Structuring data..." /\
     phase (status r') < phase (status r)).
Proof.
  cbv zeta. split.
  - eexists _, _. split; [vm_compute; reflexivity|]. split; [vm_compute; reflexivity|].
    split; [reflexivity|]. split; reflexivity.
  - eexists _, _, _, _. split; [vm_compute; reflexivity|].
    split; [vm_compute; reflexivity|]. split; [reflexivity|].
    split; [reflexivity|]. split; [reflexivity|]. split; [reflexivity|].
    vm_compute. lia.
Qed.

(** C6, at the failing input. Two photos named "image.jpg" whose OCR
    requests fail at once (the browser is offline) are processed within one
    tick of the clock: the batch ends with two records, one per image, and
    both carry the same id. *)
Theorem same_name_same_instant_same_id :
  let run := run_batch [job_offline "image.jpg" 1700000000000;
                        job_offline "image.jpg" 1700000000000] "token" "sheet" in
  length (results_of run) = 2 /\
  id <$> results_of run = ["image.jpg1700000000000"; "image.jpg1700000000000"] /\
  ~ NoDup (id <$> results_of run).
Proof.
  cbv zeta.
  assert (H : id <$> results_of (run_batch [job_offline "image.jpg" 1700000000000;
                                            job_offline "image.jpg" 1700000000000]
                                   "token" "sheet")
              = ["image.jpg1700000000000"; "image.jpg1700000000000"])
    by (vm_compute; reflexivity).
  split; [vm_compute; reflexivity|]. split; [exact H|].
  rewrite H. intros Hnd. apply NoDup_cons in Hnd as [Hnotin _].
  apply Hnotin. by left.
Qed.

(** * Further properties of the code *)

(** ** The calls a batch makes *)

Lemma awaits_app (t1 t2 : list event) : awaits (t1 ++ t2) = awaits t1 ++ awaits t2.
Proof. apply List.filter_app. Qed.

Lemma extracted_files_app (t1 t2 : list event) :
  extracted_files (t1 ++ t2) = extracted_files t1 ++ extracted_files t2.
Proof. apply omap_app. Qed.

Lemma generateExpenseJson_awaits (env : JobEnv) (t : string) :
  awaits (events_of (generateExpenseJson env t [])) = [Await_generateExpenseJson t] /\
  extracted_files (events_of (generateExpenseJson env t [])) = [].
Proof. by destruct (generateExpenseJson_events env t) as [-> | ->]. Qed.

(** X1. One job calls extraction exactly once, on its own file; it calls
    structuring only when extraction returned a non-empty text, once and with
    exactly that text; it calls persistence only when structuring returned a
    value, once, with exactly that value and the handler's token and
    spreadsheet id.  No stage is repeated and none is skipped. *)
Theorem job_calls_each_stage_at_most_once
    (tok sheet : string) (env : JobEnv) (rs : list ProcessedReceipt) :
  awaits (events_of (loop_body tok sheet env rs)) =
  Await_extractTextFromImage (file env) ::
  match ocrResponse env with
  | Rejects _ => []
  | Resolves o =>
      if falsy o then []
      else
        Await_generateExpenseJson (default "" o) ::
        match completion_of (generateExpenseJson env (default "" o) []) with
        | inl _ => []
        | inr v => [Await_saveToGoogleSheets v tok sheet]
        end
  end.
Proof.
  rewrite loop_body_exec. cbv zeta.
  rewrite (try_catch_exec tok sheet env _ _ (target_found rs env)). cbv zeta.
  destruct (ocrResponse env) as [e|o]; [done|].
  destruct (falsy o); [done|].
  destruct (generateExpenseJson_awaits env (default "" o)) as (HJ & _).
  destruct (completion_of (generateExpenseJson env (default "" o) [])) as [e|v].
  { cbn [events_of fst snd].
    change (SetProcessedReceipts ?a :: ?l) with ([SetProcessedReceipts a] ++ l).
    by rewrite !awaits_app, HJ. }
  destruct (completion_of (saveToGoogleSheets env v tok sheet [])) as [e|[]];
    cbn [events_of fst snd];
    change (SetProcessedReceipts ?a :: ?l) with ([SetProcessedReceipts a] ++ l);
    by rewrite !awaits_app, HJ.
Qed.

Lemma loop_body_extracted_files (tok sheet : string) (env : JobEnv)
    (rs : list ProcessedReceipt) :
  extracted_files (events_of (loop_body tok sheet env rs)) = [file env].
Proof.
  rewrite loop_body_exec. cbv zeta.
  rewrite (try_catch_exec tok sheet env _ _ (target_found rs env)). cbv zeta.
  destruct (ocrResponse env) as [e|o]; [done|].
  destruct (falsy o); [done|].
  destruct (generateExpenseJson_awaits env (default "" o)) as (_ & HJ).
  destruct (completion_of (generateExpenseJson env (default "" o) [])) as [e|v].
  { cbn [events_of fst snd].
    change (SetProcessedReceipts ?a :: ?l) with ([SetProcessedReceipts a] ++ l).
    by rewrite !extracted_files_app, HJ. }
  destruct (completion_of (saveToGoogleSheets env v tok sheet [])) as [e|[]];
    cbn [events_of fst snd];
    change (SetProcessedReceipts ?a :: ?l) with ([SetProcessedReceipts a] ++ l);
    by rewrite !extracted_files_app, HJ.
Qed.

Lemma for_of_extracted_files (tok sheet : string) (jobs : list JobEnv) :
  forall rs, extracted_files (events_of (for_of jobs (loop_body tok sheet) rs))
             = file <$> jobs.
Proof.
  induction jobs as [|env jobs IH]; intros rs; [done|].
  rewrite for_of_cons.
  pose proof (loop_body_extracted_files tok sheet env rs) as H1.
  destruct (loop_body_ids tok sheet env rs) as (Hc & _).
  destruct (loop_body tok sheet env rs) as [[rs1 evs1] c1].
  cbn [completion_of events_of fst snd] in *. subst c1.
  specialize (IH rs1).
  destruct (for_of jobs (loop_body tok sheet) rs1) as [[rs2 evs2] c2].
  cbn [events_of fst snd] in *. by rewrite extracted_files_app, H1, IH.
Qed.

(** X2. In a batch whose preconditions hold every image is sent to OCR
    exactly once, in input order, whatever happens to the jobs before it. *)
Theorem every_image_is_extracted_once_in_order
    (jobs : list JobEnv) (tok sheet : string) :
  jobs <> [] -> tok <> "" -> sheet <> "" ->
  extracted_files (events_of (run_batch jobs tok sheet)) = file <$> jobs.
Proof.
  intros Hj Ht Hs.
  destruct (run_batch_valid jobs tok sheet Hj Ht Hs) as (_ & _ & ->).
  change (extracted_files (events_of (for_of jobs (loop_body tok sheet) [])
                             ++ [SetIsProcessing false]) = file <$> jobs).
  rewrite extracted_files_app, for_of_extracted_files. cbn. by rewrite app_nil_r.
Qed.

Lemma every_image_is_extracted_once_in_order_witness :
  [job_offline "A.jpg" 1700000000000; job_ok "B.jpg" 1700000000400] <> [] /\
  "token" <> "" /\ "sheet" <> "" /\
  extracted_files
    (events_of (run_batch [job_offline "A.jpg" 1700000000000;
                           job_ok "B.jpg" 1700000000400] "token" "sheet"))
  = [mkFile "A.jpg" 204800; mkFile "B.jpg" 204800].
Proof.
  assert (H1 : [job_offline "A.jpg" 1700000000000; job_ok "B.jpg" 1700000000400] <> [])
    by discriminate.
  assert (H2 : "token" <> "") by discriminate.
  assert (H3 : "sheet" <> "") by discriminate.
  split; [exact H1|]. split; [exact H2|]. split; [exact H3|].
  apply (every_image_is_extracted_once_in_order _ "token" "sheet" H1 H2 H3).
Defined.

(** ** How a job ends *)

Lemma find_by_id_foldl (job : string) (i : nat) (us : list PartialReceipt) :
  forall rs : list ProcessedReceipt,
  findIndex (has_id job) rs = Some i -> Forall keeps_identity us ->
  find_by_id job (foldl (fun s u => merge_at i u s) rs us)
  = ((fun r => foldl spread r us) <$> (find_by_id job rs)).
Proof.
  induction us as [|u us IH]; intros rs Hi Hus; simpl.
  - by destruct (find_by_id job rs).
  - apply Forall_cons in Hus as [[Hu _] Hus].
    rewrite IH; [|by rewrite findIndex_alter_keep|done].
    rewrite find_by_id_merge by done. by destruct (find_by_id job rs).
Qed.

Lemma saveToGoogleSheets_ok (env : JobEnv) (v : json) (tok sheet : string) (u : unit) :
  completion_of (saveToGoogleSheets env v tok sheet []) = inr u
  <-> row_error v = None /\ sheetsResponse env = Resolves tt.
Proof.
  unfold saveToGoogleSheets, await, completion_of; simpl. destruct u.
  destruct (row_error v) as [e|]; [split; [done|by intros [? _]]|].
  destruct (sheetsResponse env) as [e|[]]; split; try done. by intros [_ ?].
Qed.

Lemma or_else_nonempty (s : option string) (d : string) : d <> "" -> or_else s d <> "".
Proof.
  intros Hd. destruct s as [s|]; simpl; [|done].
  destruct (String.eqb s "") eqn:E; [done|]. by apply String.eqb_neq.
Qed.

(** X3. When a job's pipeline is over, the record its id resolves to is
    either "Saved successfully!" with saveStatus success, which happens
    exactly when extraction returned a non-empty text, structuring returned a
    value, the row could be built from it and the append request succeeded;
    or it is "Failed" with saveStatus failed and a non-empty error message. *)
Theorem job_succeeds_exactly_when_every_stage_does
    (tok sheet : string) (env : JobEnv) (rs : list ProcessedReceipt) :
  let final := results_of (loop_body tok sheet env rs) in
  let all_succeed :=
    exists t v, ocrResponse env = Resolves (Some t) /\ t <> "" /\
      completion_of (generateExpenseJson env t []) = inr v /\
      row_error v = None /\ sheetsResponse env = Resolves tt in
  exists r, find_by_id (job_id env) final = Some r /\
    ((all_succeed /\ saveStatus r = success /\ status r = "Saved successfully!") \/
     (~ all_succeed /\ saveStatus r = failed /\ status r = "Failed" /\
      exists m, error r = Some m /\ m <> "")).
Proof.
  cbv zeta.
  destruct (loop_body_updates tok sheet env rs) as (_ & -> & _).
  destruct (find_by_id_pushed rs env) as (r0 & Hr0 & _).
  rewrite (find_by_id_foldl _ _ _ _ (target_found rs env) (job_updates_keep tok sheet env)).
  rewrite Hr0. simpl. eexists. split; [reflexivity|].
  assert (Hmsg : forall e, or_else (message e) "An unknown error occurred." <> "")
    by (intros e; by apply or_else_nonempty).
  unfold job_updates.
  destruct (ocrResponse env) as [e|o] eqn:Hocr.
  { right. simpl. split; [|by eauto 6]. intros (t & v & H & _). discriminate. }
  destruct (falsy o) eqn:Ho.
  { right. simpl. split; [|by eauto 6]. intros (t & v & [= ->] & Ht & _).
    by rewrite falsy_Some in Ho. }
  destruct o as [t|]; [|done]. change (default "" (Some t)) with t.
  destruct (completion_of (generateExpenseJson env t [])) as [e|v] eqn:Hgen.
  { right. simpl. split; [|by eauto 6]. intros (t' & v & [= <-] & _ & Hv & _).
    congruence. }
  destruct (completion_of (saveToGoogleSheets env v tok sheet [])) as [e|u] eqn:Hsave.
  { right. simpl. split; [|by eauto 6].
    intros (t' & v' & [= <-] & _ & Hv & Hrow & Hsheets).
    assert (v' = v) as -> by congruence.
    assert (completion_of (saveToGoogleSheets env v tok sheet []) = inr tt)
      by (by apply saveToGoogleSheets_ok).
    congruence. }
  left. simpl. split; [|done].
  apply saveToGoogleSheets_ok in Hsave as [Hrow Hsheets].
  exists t, v. repeat split; try done.
  intros ->. by simpl in Ho.
Qed.

(** ** What holds of every record in every snapshot *)

Section Invariant.
Variables (tok sheet : string) (P : ProcessedReceipt -> Prop).
Hypothesis P_initial : forall env, P (initialResult env).
Hypothesis P_update :
  forall env r u, P r -> u ∈ job_updates tok sheet env -> P (spread r u).

Lemma states_after_invariant (env : JobEnv) (i : nat) (us : list PartialReceipt) :
  forall rs : list ProcessedReceipt,
  (forall u, u ∈ us -> u ∈ job_updates tok sheet env) -> Forall P rs ->
  Forall (Forall P) (states_after i rs us) /\
  Forall P (foldl (fun s u => merge_at i u s) rs us).
Proof.
  induction us as [|u us IH]; intros rs Hus Hrs; simpl; [by split|].
  assert (H1 : Forall P (merge_at i u rs)).
  { unfold merge_at. apply Forall_alter; [done|]. intros r _ Hr.
    apply (P_update env); [done|]. apply Hus. by left. }
  destruct (IH (merge_at i u rs)) as (Ha & Hb); [|done|].
  - intros u' Hu'. apply Hus. by right.
  - split; [by constructor|done].
Qed.

Lemma loop_body_invariant (env : JobEnv) (rs : list ProcessedReceipt) :
  Forall P rs ->
  Forall (Forall P) (snapshots (events_of (loop_body tok sheet env rs))) /\
  Forall P (results_of (loop_body tok sheet env rs)).
Proof.
  intros Hrs. destruct (loop_body_updates tok sheet env rs) as (_ & -> & ->).
  assert (H0 : Forall P (rs ++ [initialResult env])).
  { apply Forall_app. split; [done|]. by constructor. }
  destruct (states_after_invariant env (target rs env) (job_updates tok sheet env)
              (rs ++ [initialResult env])) as (Ha & Hb); [done|done|].
  split; [by constructor|done].
Qed.

Lemma for_of_invariant (jobs : list JobEnv) :
  forall rs : list ProcessedReceipt, Forall P rs ->
  Forall (Forall P) (snapshots (events_of (for_of jobs (loop_body tok sheet) rs))) /\
  Forall P (results_of (for_of jobs (loop_body tok sheet) rs)).
Proof.
  induction jobs as [|env jobs IH]; intros rs Hrs; [by split|].
  rewrite for_of_cons.
  destruct (loop_body_invariant env rs Hrs) as (Hs1 & Hr1).
  destruct (loop_body_ids tok sheet env rs) as (Hc & _).
  destruct (loop_body tok sheet env rs) as [[rs1 evs1] c1].
  cbn [completion_of results_of events_of fst snd] in *. subst c1.
  destruct (IH rs1 Hr1) as (Hs2 & Hr2).
  destruct (for_of jobs (loop_body tok sheet) rs1) as [[rs2 evs2] c2].
  cbn [results_of events_of fst snd] in *.
  rewrite snapshots_app. split; [|done]. apply Forall_app. by split.
Qed.

Lemma run_batch_invariant (jobs : list JobEnv) :
  forall s r, s ∈ snapshots (events_of (run_batch jobs tok sheet)) -> r ∈ s -> P r.
Proof.
  intros s r Hs Hr.
  destruct (decide (jobs = [])) as [->|Hj]; [inversion Hs|].
  destruct (decide (tok = "")) as [Ht|Ht].
  { rewrite Ht in Hs. unfold run_batch, handleProcessReceipts in Hs.
    rewrite orb_true_r in Hs. inversion Hs. }
  destruct (decide (sheet = "")) as [Hsh|Hsh].
  { unfold run_batch, handleProcessReceipts in Hs.
    rewrite Hsh, orb_true_r in Hs. inversion Hs. }
  destruct (run_batch_valid jobs tok sheet Hj Ht Hsh) as (_ & _ & Hev).
  rewrite Hev, !snapshots_cons, snapshots_app in Hs. cbn in Hs. rewrite app_nil_r in Hs.
  apply elem_of_cons in Hs as [->|Hs]; [inversion Hr|].
  destruct (for_of_invariant jobs [] (List.Forall_nil _)) as (Hall & _).
  rewrite Forall_forall in Hall. specialize (Hall s Hs).
  rewrite Forall_forall in Hall. by apply Hall.
Qed.

End Invariant.

Lemma job_updates_shape (tok sheet : string) (env : JobEnv) (u : PartialReceipt) :
  u ∈ job_updates tok sheet env ->
  (exists e, u = failure e) \/ u = with_status "Structuring data..." \/
  (exists v, u = with_status_data "Data extracted" v) \/
  u = with_status "Saving to Google Sheets..." \/
  u = with_status_saveStatus "Saved successfully!" success.
Proof.
  unfold job_updates. intros Hu.
  destruct (ocrResponse env) as [e|o].
  { apply list_elem_of_singleton in Hu. eauto. }
  destruct (falsy o).
  { apply list_elem_of_singleton in Hu. eauto. }
  apply elem_of_cons in Hu as [->|Hu]; [auto|].
  destruct (completion_of (generateExpenseJson _ _ _)) as [e|v].
  { apply list_elem_of_singleton in Hu. eauto. }
  apply elem_of_cons in Hu as [->|Hu]; [eauto 6|].
  apply elem_of_cons in Hu as [->|Hu]; [auto|].
  destruct (completion_of (saveToGoogleSheets _ _ _ _ _)) as [e|[]];
    apply list_elem_of_singleton in Hu; eauto 6.
Qed.

Lemma error_consistent_update (tok sheet : string) (env : JobEnv)
    (r : ProcessedReceipt) (u : PartialReceipt) :
  error_consistent r -> u ∈ job_updates tok sheet env -> error_consistent (spread r u).
Proof.
  intros (He & Hf & Hp & _) Hu. unfold error_consistent.
  apply job_updates_shape in Hu as [ [e ->] | [ -> | [ [v ->] | [ -> | -> ] ] ] ]; cbn.
  - split; [right; eexists; split; [reflexivity|by apply or_else_nonempty]|].
    split; [done|]. split; [done|]. vm_compute. lia.
  - split; [done|]. split; [done|]. split; [done|]. vm_compute. lia.
  - split; [done|]. split; [done|]. split; [done|]. vm_compute. lia.
  - split; [done|]. split; [done|]. split; [done|]. vm_compute. lia.
  - split; [done|]. split; [done|]. split; [done|]. vm_compute. lia.
Qed.

(** X4. In every snapshot of every batch, colliding ids or not, each
    record's error is absent or a non-empty message, a failed record always
    has one and a pending record never does; so the guard [receipt.error] of
    the card's error box is truthy on every failed record and falsy on every
    pending one.  The status is always one of the six messages of the
    pipeline.  Whether the card is displayed depends further on its data
    table, which this does not cover. *)
Theorem failed_records_always_carry_an_error
    (jobs : list JobEnv) (tok sheet : string)
    (s : list ProcessedReceipt) (r : ProcessedReceipt) :
  s ∈ snapshots (events_of (run_batch jobs tok sheet)) -> r ∈ s ->
  error_consistent r /\
  (saveStatus r = failed -> error_truthy r = true) /\
  (saveStatus r = pending -> error_truthy r = false).
Proof.
  intros Hs Hr.
  assert (H : error_consistent r).
  { apply (run_batch_invariant tok sheet error_consistent) with jobs s; try done.
    - intros env. unfold error_consistent; cbn. split; [by left|]. split; [done|].
      split; [done|]. vm_compute. lia.
    - intros env r' u. apply error_consistent_update. }
  split; [done|]. destruct H as (He & Hf & Hp & _). unfold error_truthy. split.
  - intros Hfail. destruct He as [He|(m & He & Hm)]; [by apply Hf in Hfail|].
    rewrite He. simpl. apply String.eqb_neq in Hm. by rewrite Hm.
  - intros Hpend. by rewrite (Hp Hpend).
Qed.

Lemma failed_records_always_carry_an_error_witness :
  exists s r,
    s ∈ snapshots (events_of (run_batch [job_offline "image.jpg" 1700000000000;
                                         job_ok "image.jpg" 1700000000000]
                                "token" "sheet")) /\
    r ∈ s /\ saveStatus r = failed /\ error_truthy r = true.
Proof.
  set (run := run_batch [job_offline "image.jpg" 1700000000000;
                         job_ok "image.jpg" 1700000000000] "token" "sheet").
  assert (Hs : [ {| id := "image.jpg1700000000000"; imagePreview := "blob:image.jpg";
                    status := "Failed"; data := JNull; saveStatus := failed;
                    error := Some "Failed to fetch" |} ]
               ∈ snapshots (events_of run)).
  { vm_compute. do 2 right. left. }
  eexists _, _. split; [exact Hs|]. split; [by left|]. split; [reflexivity|].
  apply (failed_records_always_carry_an_error _ _ _ _ _ Hs); [by left|reflexivity].
Defined.

(** ** The processing flag and the Process button *)

Lemma loop_body_job_events (tok sheet : string) (env : JobEnv)
    (rs : list ProcessedReceipt) :
  Forall (fun ev => job_event ev = true) (events_of (loop_body tok sheet env rs)).
Proof.
  rewrite loop_body_exec. cbv zeta.
  rewrite (try_catch_exec tok sheet env _ _ (target_found rs env)). cbv zeta.
  assert (HJ : forall t, Forall (fun ev => job_event ev = true)
                           (events_of (generateExpenseJson env t []))).
  { intros t. destruct (generateExpenseJson_events env t) as [-> | ->];
      by repeat constructor. }
  destruct (ocrResponse env) as [e|o]; [by repeat constructor|].
  destruct (falsy o); [by repeat constructor|].
  destruct (completion_of (generateExpenseJson env (default "" o) [])) as [e|v].
  { cbn [events_of fst snd]. repeat (apply List.Forall_cons; [done|]).
    apply Forall_app. split; [apply HJ|by repeat constructor]. }
  destruct (completion_of (saveToGoogleSheets env v tok sheet [])) as [e|[]];
    cbn [events_of fst snd]; repeat (apply List.Forall_cons; [done|]);
    (apply Forall_app; split; [apply HJ|by repeat constructor]).
Qed.

Lemma for_of_job_events (tok sheet : string) (jobs : list JobEnv) :
  forall rs, Forall (fun ev => job_event ev = true)
               (events_of (for_of jobs (loop_body tok sheet) rs)).
Proof.
  induction jobs as [|env jobs IH]; intros rs; [by constructor|].
  rewrite for_of_cons.
  pose proof (loop_body_job_events tok sheet env rs) as H1.
  destruct (loop_body_ids tok sheet env rs) as (Hc & _).
  destruct (loop_body tok sheet env rs) as [[rs1 evs1] c1].
  cbn [completion_of events_of fst snd] in *. subst c1.
  specialize (IH rs1).
  destruct (for_of jobs (loop_body tok sheet) rs1) as [[rs2 evs2] c2].
  cbn [events_of fst snd] in *. apply Forall_app. by split.
Qed.

Lemma isProcessing_after_job_events (b : bool) (tr : list event) :
  Forall (fun ev => job_event ev = true) tr -> isProcessing_after b tr = b.
Proof.
  intros H. revert b. induction H as [|ev tr Hev _ IH]; intros b; [done|].
  change (isProcessing_after b (ev :: tr))
    with (isProcessing_after (match ev with SetIsProcessing b' => b' | _ => b end) tr).
  rewrite IH. by destruct ev.
Qed.

Lemma isProcessing_after_app (b : bool) (t1 t2 : list event) :
  isProcessing_after b (t1 ++ t2) = isProcessing_after (isProcessing_after b t1) t2.
Proof. unfold isProcessing_after. apply fold_left_app. Qed.

(** X5. From the first event of a batch whose preconditions hold until its
    last, [isProcessing] is set, so the Process button is disabled whatever
    files and destination are selected meanwhile; after the last event it is
    clear again. *)
Theorem button_is_disabled_while_a_batch_runs
    (jobs : list JobEnv) (tok sheet : string) :
  jobs <> [] -> tok <> "" -> sheet <> "" ->
  let trace := events_of (run_batch jobs tok sheet) in
  (forall k b, 0 < k < length trace ->
     isProcessing_after b (take k trace) = true /\
     forall files tok' sheet',
       process_disabled (isProcessing_after b (take k trace)) files tok' sheet' = true) /\
  (forall b, isProcessing_after b trace = false).
Proof.
  intros Hj Ht Hs. cbv zeta.
  destruct (run_batch_valid jobs tok sheet Hj Ht Hs) as (_ & _ & ->).
  pose proof (for_of_job_events tok sheet jobs []) as HT.
  set (T := events_of (for_of jobs (loop_body tok sheet) [])) in *.
  split.
  - intros k b Hk.
    assert (Hon : isProcessing_after b
              (take k (SetIsProcessing true :: SetProcessedReceipts []
                         :: T ++ [SetIsProcessing false])) = true).
    { destruct k as [|k]; [lia|]. cbn [take].
      change (isProcessing_after b (SetIsProcessing true :: ?l))
        with (isProcessing_after true l).
      apply isProcessing_after_job_events.
      cbn [length] in Hk. rewrite length_app in Hk. cbn [length] in Hk.
      change (SetProcessedReceipts [] :: T ++ [SetIsProcessing false])
        with ((SetProcessedReceipts [] :: T) ++ [SetIsProcessing false]).
      rewrite take_app_le by (cbn [length]; lia).
      apply Forall_take. by constructor. }
    split; [done|]. intros files tok' sheet'. by rewrite Hon.
  - intros b.
    change (SetIsProcessing true :: SetProcessedReceipts [] :: T ++ [SetIsProcessing false])
      with ((SetIsProcessing true :: SetProcessedReceipts [] :: T)
            ++ [SetIsProcessing false]).
    by rewrite isProcessing_after_app.
Qed.

Lemma button_is_disabled_while_a_batch_runs_witness :
  [job_ok "A.jpg" 1700000000000] <> [] /\ "token" <> "" /\ "sheet" <> "" /\
  forall b, isProcessing_after b
              (events_of (run_batch [job_ok "A.jpg" 1700000000000] "token" "sheet"))
            = false.
Proof.
  assert (H1 : [job_ok "A.jpg" 1700000000000] <> []) by discriminate.
  assert (H2 : "token" <> "") by discriminate.
  assert (H3 : "sheet" <> "") by discriminate.
  split; [exact H1|]. split; [exact H2|]. split; [exact H3|].
  apply (button_is_disabled_while_a_batch_runs _ "token" "sheet" H1 H2 H3).
Defined.

(** X6. Whenever the Process button is enabled, no batch is running and
    the handler's own guard passes: clicking it never ends in the alert, it
    announces processing and clears the collection. *)
Theorem enabled_button_never_alerts
    (isProcessing : bool) (jobs : list JobEnv) (tok sheet : string) :
  process_disabled isProcessing (file <$> jobs) tok sheet = false ->
  isProcessing = false /\
  (exists rest,
     events_of (run_batch jobs tok sheet)
     = SetIsProcessing true :: SetProcessedReceipts [] :: rest) /\
  (forall msg, Alert msg ∉ events_of (run_batch jobs tok sheet)).
Proof.
  unfold process_disabled. intros H.
  apply orb_false_iff in H as [H Hs]. apply orb_false_iff in H as [H Ht].
  apply orb_false_iff in H as [Hp Hj].
  apply String.eqb_neq in Hs, Ht. rewrite length_fmap in Hj.
  assert (Hj' : jobs <> []) by (by destruct jobs).
  split; [done|].
  destruct (run_batch_valid jobs tok sheet Hj' Ht Hs) as (_ & _ & ->).
  split; [eauto|].
  intros msg Hin. apply elem_of_cons in Hin as [?|Hin]; [done|].
  apply elem_of_cons in Hin as [?|Hin]; [done|].
  apply elem_of_app in Hin as [Hin|Hin].
  - pose proof (for_of_job_events tok sheet jobs []) as HT.
    rewrite Forall_forall in HT. by specialize (HT _ Hin).
  - apply list_elem_of_singleton in Hin. done.
Qed.

Lemma enabled_button_never_alerts_witness :
  process_disabled false (file <$> [job_ok "A.jpg" 1700000000000]) "token" "sheet" = false /\
  forall msg, Alert msg ∉ events_of (run_batch [job_ok "A.jpg" 1700000000000] "token" "sheet").
Proof.
  assert (H : process_disabled false (file <$> [job_ok "A.jpg" 1700000000000])
                "token" "sheet" = false) by reflexivity.
  split; [exact H|].
  apply (enabled_button_never_alerts false [job_ok "A.jpg" 1700000000000] "token" "sheet" H).
Defined.

(** ** Snapshots only grow *)

Section Chain.
Context {A : Type} (R : A -> A -> Prop).

Lemma chain_app (a b c : A) (l1 l2 : list A) :
  chain R a l1 b -> chain R b l2 c -> chain R a (l1 ++ l2) c.
Proof.
  revert a. induction l1 as [|s l1 IH]; intros a H1 H2; simpl in *.
  - by subst.
  - destruct H1 as [Ha H1]. split; [done|]. by apply IH.
Qed.

Lemma chain_lookup (a c : A) (l : list A) (j : nat) (s s' : A) :
  chain R a l c -> l !! j = Some s -> l !! S j = Some s' -> R s s'.
Proof.
  revert a j. induction l as [|x l IH]; intros a j Hp Hs Hs'; [done|].
  destruct Hp as [_ Hp]. destruct j as [|j]; simpl in *.
  - injection Hs as ->. destruct l as [|y l]; [done|]. simpl in Hs'. injection Hs' as ->.
    by destruct Hp.
  - by apply (IH x j).
Qed.

End Chain.

Lemma grows_push (rs : list ProcessedReceipt) (r : ProcessedReceipt) :
  grows rs (rs ++ [r]).
Proof.
  unfold grows. rewrite !fmap_app, length_app. cbn [length].
  split; [by apply prefix_app_r|]. split; [by apply prefix_app_r|]. lia.
Qed.

Lemma grows_merge (i : nat) (u : PartialReceipt) (rs : list ProcessedReceipt) :
  upd_id u = None /\ upd_imagePreview u = None -> grows rs (merge_at i u rs).
Proof.
  intros [Hi Hp]. unfold grows. rewrite merge_at_ids by done.
  assert (Hprev : imagePreview <$> merge_at i u rs = imagePreview <$> rs).
  { apply (foldl_merge_previews i [u] rs). by constructor. }
  rewrite Hprev. unfold merge_at. rewrite length_alter.
  split; [done|]. split; [done|]. lia.
Qed.

Lemma states_after_grow (i : nat) (us : list PartialReceipt) :
  forall rs : list ProcessedReceipt,
  Forall (fun u => upd_id u = None /\ upd_imagePreview u = None) us ->
  chain grows rs (states_after i rs us) (foldl (fun s u => merge_at i u s) rs us).
Proof.
  induction us as [|u us IH]; intros rs Hus; simpl; [done|].
  apply Forall_cons in Hus as [Hu Hus]. split; [by apply grows_merge|by apply IH].
Qed.

Lemma for_of_grows (tok sheet : string) (jobs : list JobEnv) :
  forall rs : list ProcessedReceipt,
  chain grows rs (snapshots (events_of (for_of jobs (loop_body tok sheet) rs)))
        (results_of (for_of jobs (loop_body tok sheet) rs)).
Proof.
  induction jobs as [|env jobs IH]; intros rs; [done|].
  rewrite for_of_cons.
  assert (H1 : chain grows rs (snapshots (events_of (loop_body tok sheet env rs)))
                 (results_of (loop_body tok sheet env rs))).
  { destruct (loop_body_updates tok sheet env rs) as (_ & -> & ->).
    split; [apply grows_push|]. apply states_after_grow, job_updates_keep_preview. }
  destruct (loop_body_ids tok sheet env rs) as (Hc & _).
  destruct (loop_body tok sheet env rs) as [[rs1 evs1] c1].
  cbn [completion_of results_of events_of fst snd] in *. subst c1.
  specialize (IH rs1).
  destruct (for_of jobs (loop_body tok sheet) rs1) as [[rs2 evs2] c2].
  cbn [results_of events_of fst snd] in *.
  rewrite snapshots_app. by eapply chain_app.
Qed.

(** X7. Within a batch the published collection is append-only: from each
    snapshot to the next the ids and the previews of the records already
    there stay as they are and in place, and at most one record is added, at
    the end. *)
Theorem snapshots_only_grow (jobs : list JobEnv) (tok sheet : string)
    (j : nat) (s s' : list ProcessedReceipt) :
  snapshots (events_of (run_batch jobs tok sheet)) !! j = Some s ->
  snapshots (events_of (run_batch jobs tok sheet)) !! S j = Some s' ->
  grows s s'.
Proof.
  intros Hs Hs'.
  destruct (decide (jobs = [])) as [->|Hj]; [done|].
  destruct (decide (tok = "")) as [Ht|Ht].
  { rewrite Ht in Hs. unfold run_batch, handleProcessReceipts in Hs.
    by rewrite orb_true_r in Hs. }
  destruct (decide (sheet = "")) as [Hsh|Hsh].
  { unfold run_batch, handleProcessReceipts in Hs. by rewrite Hsh, orb_true_r in Hs. }
  destruct (run_batch_valid jobs tok sheet Hj Ht Hsh) as (_ & _ & Hev).
  rewrite Hev, !snapshots_cons, snapshots_app in Hs, Hs'. cbn in Hs, Hs'.
  rewrite app_nil_r in Hs, Hs'.
  apply (chain_lookup grows [] (results_of (for_of jobs (loop_body tok sheet) []))
           ([] :: snapshots (events_of (for_of jobs (loop_body tok sheet) []))) j);
    [|done|done].
  split; [|apply for_of_grows]. unfold grows. cbn. split; [done|]. split; [done|]. lia.
Qed.

Lemma snapshots_only_grow_witness :
  grows [initialResult (job_ok "A.jpg" 1700000000000)]
        [ {| id := "A.jpg1700000000000"; imagePreview := "blob:A.jpg";
             status := "Structuring data..."; data := JNull;
             saveStatus := pending; error := None |} ].
Proof.
  apply (snapshots_only_grow [job_ok "A.jpg" 1700000000000] "token" "sheet" 1);
    vm_compute; reflexivity.
Defined.

Lemma distinct_ids_keep_records_well_formed_witness :
  NoDup (job_id <$> [job_ok "A.jpg" 1700000000000; job_offline "B.jpg" 1700000000000]) /\
  forall s r,
    s ∈ snapshots (events_of
          (run_batch [job_ok "A.jpg" 1700000000000; job_offline "B.jpg" 1700000000000]
             "token" "sheet")) ->
    r ∈ s -> record_ok r.
Proof.
  assert (Hj : [job_ok "A.jpg" 1700000000000; job_offline "B.jpg" 1700000000000] <> [])
    by discriminate.
  assert (Ht : "token" <> "") by discriminate.
  assert (Hs : "sheet" <> "") by discriminate.
  assert (Hnd : NoDup (job_id <$> [job_ok "A.jpg" 1700000000000;
                                   job_offline "B.jpg" 1700000000000])).
  { refine (bool_decide_unpack _ _). vm_compute. exact I. }
  split; [exact Hnd|].
  apply (distinct_ids_keep_records_well_formed _ "token" "sheet" Hj Ht Hs Hnd).
Defined.

Lemma one_record_per_image_witness :
  length (results_of
    (run_batch [job_ok "A.jpg" 1700000000000; job_offline "A.jpg" 1700000000000]
       "token" "sheet")) = 2%nat.
Proof.
  assert (Hj : [job_ok "A.jpg" 1700000000000; job_offline "A.jpg" 1700000000000] <> [])
    by discriminate.
  assert (Ht : "token" <> "") by discriminate.
  assert (Hs : "sheet" <> "") by discriminate.
  apply (one_record_per_image _ "token" "sheet" Hj Ht Hs).
Defined.

Lemma job_id_same_name_witness :
  now (job_ok "A.jpg" 1700000000000) = now (job_offline "A.jpg" 1700000000000).
Proof.
  apply job_id_same_name; reflexivity.
Defined.

(** ** Splitting and joining strings *)

Lemma split_no_sep (sep : ascii) (d : string) :
  Js.occurs sep d = false -> Js.split sep d = [d].
Proof.
  induction d as [|c d IH]; [done|]. simpl. intros H.
  apply orb_false_iff in H as [Hc Hd]. by rewrite Hc, (IH Hd).
Qed.

Lemma split_last (sep : ascii) (s : string) :
  exists init lst, Js.split sep s = init ++ [lst] /\
    forall d, Js.occurs sep d = false -> Js.split sep (s +:+ d) = init ++ [lst +:+ d].
Proof.
  induction s as [|c s (init & lst & H1 & H2)].
  - exists [], EmptyString. split; [done|]. intros d Hd. by apply split_no_sep.
  - destruct (Ascii.eqb c sep) eqn:E.
    + exists (EmptyString :: init), lst. simpl. rewrite E, H1. split; [done|].
      intros d Hd. by rewrite (H2 d Hd).
    + destruct init as [|p ps].
      * exists [], (String c lst). simpl. rewrite E, H1. split; [done|].
        intros d Hd. by rewrite (H2 d Hd).
      * exists (String c p :: ps), lst. simpl. rewrite E, H1. split; [done|].
        intros d Hd. by rewrite (H2 d Hd).
Qed.

Lemma split_app_sep (sep : ascii) (a b : string) :
  Js.split sep (a +:+ String sep b) = Js.split sep a ++ Js.split sep b.
Proof.
  induction a as [|c a IH]; simpl.
  - by rewrite Ascii.eqb_refl.
  - rewrite IH. destruct (Ascii.eqb c sep); [done|].
    destruct (split_last sep a) as (init & lst & -> & _). by destruct init.
Qed.

Lemma join_split (sep : ascii) (s : string) :
  Js.join (String sep EmptyString) (Js.split sep s) = s.
Proof.
  induction s as [|c s IH]; [done|]. simpl.
  destruct (split_last sep s) as (init & lst & Hs & _).
  destruct (Ascii.eqb c sep) eqn:E.
  - apply Ascii.eqb_eq in E as ->. rewrite Hs in *.
    destruct init; simpl in *; by rewrite IH.
  - rewrite Hs in *. destruct init as [|p [|q ps]]; simpl in *; by rewrite <- IH.
Qed.

Lemma slice_drops_last {A} (init : list A) (x : A) :
  Js.slice (init ++ [x]) 0 (-1) = init.
Proof.
  unfold Js.slice. rewrite length_app. cbn [length].
  change (0 <? 0)%Z with false. change (-1 <? 0)%Z with true. cbv iota zeta.
  replace (Z.min 0 _) with 0%Z by lia.
  replace (Z.max _ 0 - 0)%Z with (Z.of_nat (length init)) by lia.
  rewrite Nat2Z.id. change (Z.to_nat 0) with 0%nat.
  by rewrite drop_0, take_app_length.
Qed.

Lemma pretty_N_go_no_dot (x : N) :
  forall s, Js.occurs "." s = false -> Js.occurs "." (pretty_N_go x s) = false.
Proof.
  induction (N.lt_wf_0 x) as [x _ IH]; intros s Hs.
  assert (x = 0 \/ 0 < x)%N as [->|Hx] by lia.
  - by rewrite pretty_N_go_0.
  - rewrite pretty_N_go_step by done. apply IH.
    { by apply N.div_lt. }
    simpl. rewrite Hs, orb_false_r. unfold pretty_N_char. by repeat case_match.
Qed.

Lemma pretty_N_no_dot (n : N) : Js.occurs "." (pretty n) = false.
Proof.
  unfold pretty, pretty_N. destruct (decide (n = 0%N)); [done|].
  by apply pretty_N_go_no_dot.
Qed.

Lemma title_of_suffix (s d : string) :
  Js.occurs "." d = false -> title_of (s +:+ d) = title_of s.
Proof.
  intros Hd. unfold title_of.
  destruct (split_last "." s) as (init & lst & -> & H). rewrite (H d Hd).
  by rewrite !slice_drops_last.
Qed.

Lemma title_of_stem (stem ext : string) :
  Js.occurs "." ext = false -> title_of (stem +:+ "." +:+ ext) = stem.
Proof.
  intros He. unfold title_of.
  change ("." +:+ ext) with (String "." ext).
  rewrite split_app_sep, (split_no_sep _ _ He), slice_drops_last.
  apply join_split.
Qed.

Lemma title_of_no_dot (s : string) : Js.occurs "." s = false -> title_of s = "".
Proof.
  intros Hs. unfold title_of. rewrite (split_no_sep _ _ Hs).
  change [s] with ([] ++ [s]). by rewrite slice_drops_last.
Qed.

(** X11. The title of a job's card never shows the timestamp of its id:
    it is the title of the file name alone, that is the name without its last
    extension, and empty for a name without a dot. *)
Theorem card_title_is_the_name_without_extension (env : JobEnv) (stem ext : string) :
  title_of (job_id env) = title_of (name (file env)) /\
  (name (file env) = stem +:+ "." +:+ ext -> Js.occurs "." ext = false ->
   card_title (initialResult env) = stem) /\
  (Js.occurs "." (name (file env)) = false -> card_title (initialResult env) = "").
Proof.
  assert (H : title_of (job_id env) = title_of (name (file env))).
  { unfold job_id. apply title_of_suffix, pretty_N_no_dot. }
  split; [done|]. unfold card_title.
  change (id (initialResult env)) with (job_id env). rewrite H.
  split.
  - intros -> He. by apply title_of_stem.
  - apply title_of_no_dot.
Qed.

Lemma card_title_is_the_name_without_extension_witness :
  card_title (initialResult (job_ok "shop.receipt.jpg" 1700000000000)) = "shop.receipt".
Proof.
  apply (card_title_is_the_name_without_extension
           (job_ok "shop.receipt.jpg" 1700000000000) "shop.receipt" "jpg");
    reflexivity.
Defined.

(** X12. At the end of a batch the titles of the cards are, in upload
    order, the file names without their last extension, whatever the clock
    read: files that differ only in their last extension get the same
    title. *)
Theorem final_card_titles_come_from_file_names
    (jobs : list JobEnv) (tok sheet : string) :
  jobs <> [] -> tok <> "" -> sheet <> "" ->
  card_title <$> results_of (run_batch jobs tok sheet)
  = (fun env => title_of (name (file env))) <$> jobs.
Proof.
  intros Hj Ht Hs.
  destruct (run_batch_valid jobs tok sheet Hj Ht Hs) as (_ & -> & _).
  destruct (for_of_records tok sheet jobs [] [] eq_refl eq_refl) as (Hids & _).
  cbn [app] in Hids.
  change (card_title <$> ?l) with ((title_of ∘ id) <$> l).
  rewrite (list_fmap_compose id title_of), Hids, <- list_fmap_compose.
  apply list_fmap_ext. intros _ env _. cbn.
  unfold job_id. apply title_of_suffix, pretty_N_no_dot.
Qed.

Lemma final_card_titles_come_from_file_names_witness :
  card_title <$> results_of
    (run_batch [job_ok "a.jpg" 1700000000000; job_offline "a.png" 1700000000001]
       "token" "sheet")
  = ["a"; "a"].
Proof.
  assert (Hj : [job_ok "a.jpg" 1700000000000; job_offline "a.png" 1700000000001] <> [])
    by discriminate.
  assert (Ht : "token" <> "") by discriminate.
  assert (Hs : "sheet" <> "") by discriminate.
  rewrite (final_card_titles_come_from_file_names _ "token" "sheet" Hj Ht Hs).
  reflexivity.
Defined.

(** ** What the dashboard is given *)

Lemma for_of_snapshot_ids (tok sheet : string) (jobs : list JobEnv) :
  forall (done : list JobEnv) (rs : list ProcessedReceipt),
  id <$> rs = job_id <$> done ->
  Forall (fun s => exists k, 0 < k <= length jobs /\
                     id <$> s = job_id <$> (done ++ take k jobs))
         (snapshots (events_of (for_of jobs (loop_body tok sheet) rs))).
Proof.
  induction jobs as [|env jobs IH]; intros done rs Hids; [by constructor|].
  rewrite for_of_cons.
  assert (H0 : id <$> (rs ++ [initialResult env]) = job_id <$> (done ++ [env])).
  { by rewrite !fmap_app, Hids. }
  assert (H1 : Forall (fun s => id <$> s = job_id <$> (done ++ [env]))
                 (snapshots (events_of (loop_body tok sheet env rs)))).
  { destruct (loop_body_updates tok sheet env rs) as (_ & _ & ->).
    apply List.Forall_cons; [done|]. apply Forall_forall. intros s Hs.
    apply elem_of_states_after in Hs as (n & ->).
    rewrite foldl_merge_ids; [done|].
    apply Forall_take, job_updates_keep. }
  destruct (loop_body_ids tok sheet env rs) as (Hc & Hr).
  destruct (loop_body tok sheet env rs) as [[rs1 evs1] c1].
  cbn [completion_of results_of events_of fst snd] in *. subst c1.
  assert (Hids1 : id <$> rs1 = job_id <$> (done ++ [env])).
  { by rewrite Hr, Hids, fmap_app. }
  specialize (IH (done ++ [env]) rs1 Hids1).
  destruct (for_of jobs (loop_body tok sheet) rs1) as [[rs2 evs2] c2].
  cbn [events_of fst snd] in *.
  rewrite snapshots_app. apply Forall_app. split.
  - eapply Forall_impl; [exact H1|]. intros s Hs. exists 1%nat.
    split; [cbn [length]; lia|]. by rewrite Hs.
  - eapply Forall_impl; [exact IH|]. intros s (k & Hk & Hs). exists (S k).
    split; [cbn [length]; lia|]. rewrite Hs. cbn [take]. by rewrite <- app_assoc.
Qed.

(** X13. A batch shows the dashboard from its first record on and never
    hides it again: its first snapshot is the empty collection, and every
    later one holds, in upload order, the cards of the first [k] jobs for
    some [k >= 1]; their keys are pairwise distinct when the ids of the jobs
    are. *)
Theorem cards_follow_upload_order
    (jobs : list JobEnv) (tok sheet : string) :
  jobs <> [] -> tok <> "" -> sheet <> "" ->
  let snaps := snapshots (events_of (run_batch jobs tok sheet)) in
  snaps !! 0%nat = Some [] /\
  forall j s, snaps !! S j = Some s ->
    dashboard_shown s = true /\
    (exists k, 0 < k <= length jobs /\ card_keys s = job_id <$> take k jobs) /\
    (NoDup (job_id <$> jobs) -> NoDup (card_keys s)).
Proof.
  intros Hj Ht Hs. cbv zeta.
  destruct (run_batch_valid jobs tok sheet Hj Ht Hs) as (_ & _ & ->).
  rewrite !snapshots_cons, snapshots_app. cbn [snapshots omap]. rewrite app_nil_r.
  split; [done|]. intros j s Hl. cbn in Hl.
  pose proof (for_of_snapshot_ids tok sheet jobs [] [] eq_refl) as Hall.
  rewrite Forall_forall in Hall.
  destruct (Hall s (list_elem_of_lookup_2 _ _ _ Hl)) as (k & Hk & Hids).
  cbn [app] in Hids. unfold card_keys.
  assert (Hlen : length s = k).
  { apply (f_equal length) in Hids. rewrite !length_fmap, length_take in Hids. lia. }
  split; [|split].
  - unfold dashboard_shown. apply Nat.ltb_lt. lia.
  - by exists k.
  - intros Hnd. rewrite Hids, fmap_take.
    rewrite <- (take_drop k (job_id <$> jobs)) in Hnd.
    by apply NoDup_app in Hnd as (Hnd & _).
Qed.

Lemma cards_follow_upload_order_witness :
  snapshots (events_of (run_batch [job_ok "A.jpg" 1700000000000] "token" "sheet"))
    !! 0%nat = Some [].
Proof.
  assert (Hj : [job_ok "A.jpg" 1700000000000] <> []) by discriminate.
  assert (Ht : "token" <> "") by discriminate.
  assert (Hs : "sheet" <> "") by discriminate.
  apply (cards_follow_upload_order _ "token" "sheet" Hj Ht Hs).
Defined.

(** ** The data table and the row of the sheet *)

Lemma item_text_table_row (item : json) :
  item_text item = None -> table_row item = None.
Proof.
  unfold item_text, table_row. destruct item; try done;
    destruct (converts _ && converts _); try done.
Qed.

Lemma table_row_item_text (item : json) :
  table_row item = None ->
  item_text item = None \/
  item_text item = Some (TypeError "Cannot convert object to primitive value").
Proof.
  unfold item_text, table_row. destruct item; try done;
    destruct (converts _ && converts _); auto.
Qed.

Lemma items_text_table_rows (items : list json) :
  items_text items = None -> table_rows items = None.
Proof.
  induction items as [|item items IH]; [done|]. cbn [items_text table_rows].
  destruct (item_text item) eqn:E; [done|].
  rewrite (item_text_table_row _ E). exact IH.
Qed.

Lemma table_rows_items_text (items : list json) :
  table_rows items = None ->
  items_text items = None \/
  items_text items = Some (TypeError "Cannot convert object to primitive value").
Proof.
  induction items as [|item items IH]; [by left|]. cbn [items_text table_rows].
  destruct (table_row item) eqn:E; [done|]. intros H.
  destruct (table_row_item_text _ E) as [-> | ->]; [by apply IH|by right].
Qed.

(** X14. The two consumers of a structured value: whenever the total is
    a number and the row of the sheet can be built, the body of the table
    component runs without a TypeError; and when the body of the table
    component runs, the total is a number and building the row can fail in
    one way only, on the conversion to a string of an item's name or quantity,
    which the row needs and the table does not do. *)
Theorem table_body_runs_whenever_the_row_builds (data : json) :
  (is_number (get "total" data) = true -> row_error data = None ->
   ExpenseDataTable_error data = None) /\
  (ExpenseDataTable_error data = None ->
   is_number (get "total" data) = true /\
   (row_error data = None \/
    row_error data = Some (TypeError "Cannot convert object to primitive value"))).
Proof.
  unfold ExpenseDataTable_error, row_error, is_number.
  destruct data; try (cbn; split; [discriminate|discriminate]).
  destruct (get "total" _) as [[]|]; try (split; discriminate).
  destruct (get "items" _) as [[]|]; try (split; [discriminate|discriminate]).
  split.
  - intros _. apply items_text_table_rows.
  - intros H. split; [done|]. by apply table_rows_items_text.
Qed.

Lemma table_body_runs_whenever_the_row_builds_witness :
  ExpenseDataTable_error receipt_value = None.
Proof.
  apply (table_body_runs_whenever_the_row_builds receipt_value); reflexivity.
Defined.

(** An item whose name has a property [toString] of its own: the table body
    runs on it, building the row throws. *)
Example table_runs_where_the_row_throws :
  let data :=
    JObject [("total", JNumber 1 0);
             ("items", JArray [JObject [("item", JObject [("toString", JNumber 0 0)]);
                                        ("quantity", JNumber 1 0);
                                        ("price", JNumber 1 0)]])] in
  ExpenseDataTable_error data = None /\
  row_error data = Some (TypeError "Cannot convert object to primitive value").
Proof. split; reflexivity. Qed.

Lemma conforms_items_text (items : list json) :
  forallb conforms_item items = true -> items_text items = None.
Proof.
  induction items as [|item items IH]; [done|]. cbn [forallb]. intros H.
  apply andb_true_iff in H as [Hi Hr]. cbn [items_text].
  assert (Hit : item_text item = None).
  { unfold conforms_item in Hi. destruct item; try discriminate.
    apply andb_true_iff in Hi as [Hi Hp]. apply andb_true_iff in Hi as [Hs Hq].
    unfold item_text, is_number, is_string in *.
    destruct (get "item" _) as [[]|]; try discriminate.
    destruct (get "quantity" _) as [[]|]; try discriminate.
    by destruct (get "price" _) as [[]|]. }
  rewrite Hit. by apply IH.
Qed.

(** X15. A structured value of the expected shape is safe for both of
    its consumers: building the row of the sheet does not throw, so saving it
    ends as the request to the sheet does, and the body of the table
    component throws nothing on it. *)
Theorem conforming_value_is_safe_to_save_and_show
    (env : JobEnv) (v : json) (tok sheet : string) (rs : list ProcessedReceipt) :
  conforms v = true ->
  row_error v = None /\
  ExpenseDataTable_error v = None /\
  (completion_of (saveToGoogleSheets env v tok sheet rs) = inr tt <->
   sheetsResponse env = Resolves tt).
Proof.
  intros Hc.
  assert (Hrow : row_error v = None /\ ExpenseDataTable_error v = None).
  { unfold conforms in Hc. destruct v; try discriminate.
    apply andb_true_iff in Hc as [Hc Hi]. apply andb_true_iff in Hc as [_ Htot].
    unfold row_error, ExpenseDataTable_error, is_number in *.
    destruct (get "total" _) as [[]|]; try discriminate.
    destruct (get "items" _) as [[]|]; try discriminate.
    pose proof (conforms_items_text _ Hi) as Hit.
    split; [done|]. by apply items_text_table_rows. }
  destruct Hrow as [Hrow Htab].
  split; [done|]. split; [done|].
  rewrite saveToGoogleSheets_frame. cbn [completion_of snd].
  rewrite saveToGoogleSheets_ok. tauto.
Qed.

Lemma conforming_value_is_safe_to_save_and_show_witness :
  conforms receipt_value = true /\ ExpenseDataTable_error receipt_value = None.
Proof.
  assert (H : conforms receipt_value = true) by reflexivity.
  split; [exact H|].
  apply (conforming_value_is_safe_to_save_and_show
           (job_ok "A.jpg" 1700000000000) receipt_value "token" "sheet" [] H).
Defined.

(** ** The image data sent to the model *)

Lemma split_sep_second (sep : ascii) (s : string) :
  Js.occurs sep s = true -> exists a b rest, Js.split sep s = a :: b :: rest.
Proof.
  induction s as [|c s IH]; [done|]. simpl. intros H.
  destruct (Ascii.eqb c sep) eqn:E.
  - destruct (split_last sep s) as (init & lst & -> & _). destruct init; simpl; eauto.
  - destruct (IH H) as (a & b & rest & ->). eauto.
Qed.

(** X16. Of a data URL whose header has no comma the reader's promise
    resolves with what follows the first comma; it resolves with [undefined]
    exactly when the result is a string without a comma, and with the empty
    string only through the branch for a result that is not a string or
    through an empty payload. *)
Theorem image_data_is_what_follows_the_comma
    (header payload : string) (reader_result : option string) :
  (Js.occurs "," header = false -> Js.occurs "," payload = false ->
   base64EncodedData (Some (header +:+ "," +:+ payload)) = Some payload) /\
  (base64EncodedData reader_result = None <->
   exists s, reader_result = Some s /\ Js.occurs "," s = false).
Proof.
  split.
  - intros Hh Hp. unfold base64EncodedData.
    change ("," +:+ payload) with (String "," payload).
    by rewrite split_app_sep, (split_no_sep _ _ Hh), (split_no_sep _ _ Hp).
  - unfold base64EncodedData. destruct reader_result as [s|].
    + destruct (Js.occurs "," s) eqn:E.
      * destruct (split_sep_second _ _ E) as (a & b & rest & ->).
        split; [done|]. intros (s' & [= <-] & Hs'). congruence.
      * rewrite (split_no_sep _ _ E). split; [eauto|done].
    + split; [done|]. by intros (s & ? & _).
Qed.

Lemma image_data_is_what_follows_the_comma_witness :
  base64EncodedData (Some "data:image/jpeg;base64,QUJD") = Some "QUJD".
Proof.
  apply (image_data_is_what_follows_the_comma "data:image/jpeg;base64" "QUJD" None);
    reflexivity.
Defined.

(** ** Choosing the spreadsheet after login *)

Lemma prefix_spec (n s : string) :
  String.prefix n s = true <-> exists b, s = n +:+ b.
Proof.
  revert s. induction n as [|c n IH]; intros s.
  - destruct s; simpl; split; eauto.
  - destruct s as [|c' s]; simpl.
    + split; [done|]. by intros (b & ?).
    + destruct (Ascii.ascii_dec c c') as [->|Hne].
      * split.
        -- intros H. apply IH in H as (b & ->). by exists b.
        -- intros (b & Hb). apply IH. exists b. by injection Hb.
      * split; [done|]. intros (b & Hb). injection Hb as ??. done.
Qed.

Lemma includes_spec (n s : string) :
  Js.includes n s = true <-> exists a b, s = a +:+ n +:+ b.
Proof.
  induction s as [|c s IH].
  - cbn [Js.includes]. rewrite orb_false_r, prefix_spec. split.
    + intros (b & Hb). by exists EmptyString, b.
    + intros (a & b & Hab). destruct a; [by exists b|done].
  - cbn [Js.includes]. rewrite orb_true_iff, prefix_spec, IH. split.
    + intros [(b & Hb)|(a & b & Hab)]; [by exists EmptyString, b|].
      exists (String c a), b. simpl. by rewrite Hab.
    + intros (a & b & Hab). destruct a as [|c' a]; simpl in Hab.
      * left. by exists b.
      * right. injection Hab as _ Hab. by exists a, b.
Qed.

Lemma find_first {A} (p : A -> bool) (l : list A) (x : A) :
  List.find p l = Some x <->
  exists k, l !! k = Some x /\ p x = true /\
    forall j y, j < k -> l !! j = Some y -> p y = false.
Proof.
  induction l as [|a l IH]; simpl.
  - split; [done|]. by intros (k & ? & _).
  - destruct (p a) eqn:E.
    + split.
      * intros [= <-]. exists 0%nat. split; [done|]. split; [done|]. intros; lia.
      * intros (k & Hk & Hx & Hfirst). destruct k as [|k]; [by injection Hk as ->|].
        specialize (Hfirst 0%nat a). rewrite E in Hfirst.
        by discriminate Hfirst; [lia|].
    + rewrite IH. split.
      * intros (k & Hk & Hx & Hfirst). exists (S k). split; [done|]. split; [done|].
        intros [|j] y Hj Hy; [by injection Hy as <-|]. apply (Hfirst j); [lia|done].
      * intros (k & Hk & Hx & Hfirst). destruct k as [|k].
        { injection Hk as ->. congruence. }
        exists k. split; [done|]. split; [done|].
        intros j y Hj Hy. apply (Hfirst (S j)); [lia|done].
Qed.

(** X17. After login a spreadsheet is chosen automatically exactly when
    none is selected yet and some listed sheet has a name containing
    "Expenses"; the one chosen is the first such sheet of the list.  The test
    that the list is not empty adds nothing to this. *)
Theorem auto_select_picks_the_first_expenses_sheet
    (sheets : list GoogleSheetsAuth.SpreadsheetFile) (selected chosen : string) :
  GoogleSheetsAuth.auto_select sheets selected = Some chosen <->
  selected = "" /\
  exists k sheet,
    sheets !! k = Some sheet /\ GoogleSheetsAuth.id sheet = chosen /\
    (exists a b, GoogleSheetsAuth.name sheet = a +:+ "Expenses" +:+ b) /\
    forall j sheet', j < k -> sheets !! j = Some sheet' ->
      ~ exists a b, GoogleSheetsAuth.name sheet' = a +:+ "Expenses" +:+ b.
Proof.
  unfold GoogleSheetsAuth.auto_select.
  set (p := fun s => Js.includes "Expenses" (GoogleSheetsAuth.name s)).
  split.
  - destruct ((0 <? length sheets)%nat && String.eqb selected "") eqn:G; [|done].
    apply andb_true_iff in G as [_ Hsel]. apply String.eqb_eq in Hsel.
    destruct (find p sheets) as [sheet|] eqn:F; [|done]. intros [= <-].
    apply find_first in F as (k & Hk & Hp & Hfirst).
    split; [done|]. exists k, sheet. split; [done|]. split; [done|].
    split; [by apply includes_spec|].
    intros j sheet' Hj Hl Hin. apply includes_spec in Hin.
    specialize (Hfirst j sheet' Hj Hl). unfold p in Hfirst. congruence.
  - intros (-> & k & sheet & Hk & <- & Hin & Hfirst).
    assert (F : find p sheets = Some sheet).
    { apply find_first. exists k. split; [done|]. split; [by apply includes_spec|].
      intros j y Hj Hy. destruct (p y) eqn:E; [|done].
      exfalso. apply (Hfirst j y Hj Hy). by apply includes_spec. }
    rewrite F. destruct sheets; [done|]. done.
Qed.

(** ** What is written to the console *)

Lemma generateExpenseJson_trace (env : JobEnv) (t : string) :
  events_of (generateExpenseJson env t []) =
  Await_generateExpenseJson t ::
  match completion_of (generateExpenseJson env t []), jsonResponse env with
  | inl _, Resolves _ => [ConsoleError "Failed to parse JSON response from Gemini:"]
  | _, _ => []
  end.
Proof.
  unfold generateExpenseJson, bind, try_catch, await, emit, throw, ret,
    events_of, completion_of.
  destruct (jsonResponse env) as [e|[s|]]; simpl; [done| |done].
  by destruct (JSON_parse (trim s)).
Qed.

(** X18. The only thing a job ever writes to the console is the parse
    failure of the structuring response, once: an extraction, a structuring
    request or a save that is rejected is reported on the card alone. *)
Theorem only_unparsable_responses_are_logged
    (tok sheet : string) (env : JobEnv) (rs : list ProcessedReceipt) :
  let unparsable :=
    exists t, ocrResponse env = Resolves (Some t) /\ t <> "" /\
      (jsonResponse env = Resolves None \/
       exists s, jsonResponse env = Resolves (Some s) /\ JSON_parse (trim s) = None) in
  (unparsable /\
   logged (events_of (loop_body tok sheet env rs))
   = ["Failed to parse JSON response from Gemini:"]) \/
  (~ unparsable /\ logged (events_of (loop_body tok sheet env rs)) = []).
Proof.
  cbv zeta. rewrite loop_body_exec. cbv zeta.
  rewrite (try_catch_exec tok sheet env _ _ (target_found rs env)). cbv zeta.
  destruct (ocrResponse env) as [e|[t|]].
  { right. split; [by intros (t & ? & _)|done]. }
  2:{ right. split; [by intros (t & ? & _)|done]. }
  cbn [falsy]. destruct (String.eqb t "") eqn:Et.
  { apply String.eqb_eq in Et as ->. right. split; [|done].
    by intros (t & [= <-] & ? & _). }
  apply String.eqb_neq in Et. change (default "" (Some t)) with t.
  rewrite (generateExpenseJson_trace env t), (generateExpenseJson_completion env t).
  destruct (jsonResponse env) as [e|[s|]].
  - right. split; [|done]. intros (t' & _ & _ & [?|(s & ? & _)]); discriminate.
  - destruct (JSON_parse (trim s)) as [v|] eqn:Ep.
    + right. split.
      { intros (t' & _ & _ & [?|(s' & [= <-] & ?)]); congruence. }
      generalize (completion_of (saveToGoogleSheets env v tok sheet [])).
      by intros [e|[]].
    + left. split; [|done]. exists t. split; [done|]. split; [done|]. right. eauto.
  - left. split; [|done]. exists t. split; [done|]. split; [done|]. by left.
Qed.

(** ** Sessions: presses of the Process button *)




Lemma batch_flag_end (b : batch) (b0 : bool) :
  batch_valid b -> isProcessing_after b0 (batch_trace b) = false.
Proof.
  destruct b as [[jobs tok] sheet]. intros (Hj & Ht & Hs). unfold batch_trace.
  destruct (run_batch_valid jobs tok sheet Hj Ht Hs) as (_ & _ & ->).
  change (SetIsProcessing true :: SetProcessedReceipts [] :: ?T ++ [SetIsProcessing false])
    with ((SetIsProcessing true :: SetProcessedReceipts [] :: T)
          ++ [SetIsProcessing false]).
  by rewrite isProcessing_after_app.
Qed.


Lemma sequential_flag (bs : list batch) :
  Forall batch_valid bs -> isProcessing_after false (sequential bs) = false.
Proof.
  induction 1 as [|b bs Hb _ IH]; [done|].
  change (sequential (b :: bs)) with (batch_trace b ++ sequential bs).
  by rewrite isProcessing_after_app, (batch_flag_end _ _ Hb).
Qed.










(** A press while batch A is suspended on its first call is not delivered:
    the session shows A's batch alone, however often the button is pressed
    meanwhile, and a press after A has ended starts B on an empty
    collection. *)
Example press_during_a_batch_is_not_delivered :
  let A := [job_ok "A.jpg" 1700000000000] in
  let B := [job_ok "B.jpg" 1700000000900] in
  snd (session initial
         [Press A "token" "sheet"; Press B "token" "sheet"; Resume 0; Resume 1;
          Press B "token" "sheet"; Resume 0; Resume 0])
  = events_of (run_batch A "token" "sheet") /\
  snd (session initial
         [Press A "token" "sheet"; Resume 0; Resume 0; Resume 0;
          Press B "token" "sheet"; Resume 0; Resume 1; Resume 1; Resume 1])
  = events_of (run_batch A "token" "sheet") ++ events_of (run_batch B "token" "sheet").
Proof. split; vm_compute; reflexivity. Qed.

(** ** [trim] beyond ASCII *)

Example trim_strips_unicode_spaces :
  let bom := string_of_list_ascii (ascii_of_nat <$> [239; 187; 191]) in
  let nbsp := string_of_list_ascii (ascii_of_nat <$> [194; 160]) in
  let e_acute := string_of_list_ascii (ascii_of_nat <$> [195; 169]) in
  trim (bom +:+ " {} " +:+ nbsp) = "{}" /\
  JSON_parse (trim (bom +:+ "{}")) = Some (JObject []) /\
  trim (" " +:+ e_acute +:+ " ") = e_acute /\
  trim (nbsp +:+ nbsp) = "".
Proof. repeat split; vm_compute; reflexivity. Qed.
